(** * stats_supplement: family-wise error corrections and the rank-sum test

    A shallow embedding of [fwer_corrections.py] and [stattests.py].

    Numbers.  Python floats and ints are read as real numbers with exact
    arithmetic ([R] of the Standard Library): rounding, overflow, infinities
    and NaN are outside the model.  [math.sqrt] is [sqrt], [**] is [Rpower]
    on a positive base, and [math.erf] is defined below as the integral it
    denotes.  Comparisons are the decidable comparisons of [R], returned as
    [bool] the way Python returns them.

    Failures.  What raises in Python is an [outcome] carrying the exception
    class.  [OutsideReals] is no exception of Python: it marks the one place
    where a run leaves the real numbers (a complex power) and the embedding
    follows it no further. *)

From Stdlib Require Import String.
From Stdlib Require Import Reals Lra Lia List Bool Arith.
From Stdlib Require Import Permutation Sorted RiemannInt.
Import ListNotations.

Open Scope R_scope.

(** ** Exceptions and the error monad *)

Inductive exn : Type :=
| AssertionError
| ZeroDivisionError
| ValueError
| KeyError
| IndexError
| OutsideReals.

Inductive outcome (A : Type) : Type :=
| Ok (a : A)
| Raise (e : exn).

Arguments Ok {A} a.
Arguments Raise {A} e.

Definition bind {A B : Type} (m : outcome A) (k : A -> outcome B) : outcome B :=
  match m with
  | Ok a => k a
  | Raise e => Raise e
  end.

Notation "x <- m ;; k" := (bind m (fun x => k))
  (at level 61, m at next level, right associativity).
Notation "' pat <- m ;; k" := (bind m (fun x => match x with pat => k end))
  (at level 61, pat pattern, m at next level, right associativity).

(** [assert cond] *)
Definition assert (cond : bool) : outcome unit :=
  if cond then Ok tt else Raise AssertionError.

(** ** Comparisons of numbers, as booleans *)

Definition Rltb (x y : R) : bool := if Rlt_dec x y then true else false.
Definition Reqb (x y : R) : bool := if Req_dec_T x y then true else false.

(** ** Python built-ins *)

Module Py.

(** [enumerate(l)] *)
Fixpoint enumerate_from {A : Type} (i : nat) (l : list A) : list (nat * A) :=
  match l with
  | [] => []
  | x :: l' => (i, x) :: enumerate_from (S i) l'
  end.

Definition enumerate {A : Type} (l : list A) : list (nat * A) :=
  enumerate_from 0 l.

(** [zip(l1, l2)], as long as the shorter argument. *)
Definition zip {A B : Type} (l1 : list A) (l2 : list B) : list (A * B) :=
  combine l1 l2.

(** [range(n, 0, -1)]: n, n-1, ..., 1. *)
Fixpoint range_down (n : nat) : list nat :=
  match n with
  | O => []
  | S m => n :: range_down m
  end.

(** [sum(l)]: the left fold of [+] from 0. *)
Definition sum (l : list R) : R := fold_left Rplus l 0.

(** [sorted(l, key=key)].  Python's sort is stable and compares keys with
    [<] only; on keys that [<] orders totally its result is the one of any
    stable sort, here insertion from the right: an element goes past the
    elements whose key is strictly smaller and stops before one whose key is
    not, so that equal keys keep their input order. *)
Section Sorted.
Context {A K : Type} (key : A -> K) (lt : K -> K -> bool).

Fixpoint insert (x : A) (l : list A) : list A :=
  match l with
  | [] => [x]
  | y :: l' => if lt (key y) (key x) then y :: insert x l' else x :: l
  end.

Definition sorted (l : list A) : list A := fold_right insert [] l.
End Sorted.

(** [sorted(l, reverse=True)]: descending, equal elements in input order. *)
Definition sorted_reverse {A : Type} (lt : A -> A -> bool) (l : list A) : list A :=
  sorted (fun x => x) (fun a b => lt b a) l.

(** [min(l)] of a non-empty list: the first smallest element. *)
Fixpoint min_from (m : R) (l : list R) : R :=
  match l with
  | [] => m
  | x :: l' => min_from (if Rltb x m then x else m) l'
  end.

(** [a / b] *)
Definition div (a b : R) : outcome R :=
  if Reqb b 0 then Raise ZeroDivisionError else Ok (a / b).

(** [math.sqrt(x)] *)
Definition math_sqrt (x : R) : outcome R :=
  if Rltb x 0 then Raise ValueError else Ok (sqrt x).

(** [x ** y] on floats, for the exponents [1. / n] the caller passes.  A
    positive base gives the real power; base 0 gives 0 for a positive
    exponent, 1 for exponent 0 and raises for a negative one.  A negative base
    gives the base itself for exponent 1; for a fractional exponent Python 3
    answers with a complex number, where the embedding stops. *)
Definition float_pow (x y : R) : outcome R :=
  if Rltb 0 x then Ok (Rpower x y)
  else if Reqb x 0 then
    (if Rltb 0 y then Ok 0
     else if Reqb y 0 then Ok 1 else Raise ZeroDivisionError)
  else if Reqb y 1 then Ok x
  else Raise OutsideReals.

(** [[f(x) for x in l]] where [f] may raise. *)
Fixpoint mapM {A B : Type} (f : A -> outcome B) (l : list A) : outcome (list B) :=
  match l with
  | [] => Ok []
  | x :: l' => y <- f x ;; ys <- mapM f l' ;; Ok (y :: ys)
  end.

End Py.

(** ** numpy arrays, as lists *)

Module Np.

(** [np.array(p_values)]: the sequence as a vector of fixed size. *)
Definition array (p_values : list R) : list R := p_values.

(** [np.zeros(n, dtype=bool)] *)
Definition zeros (n : nat) : list bool := repeat false n.

(** [a[i] = v] for one index. *)
Fixpoint set_item (a : list bool) (i : nat) (v : bool) : outcome (list bool) :=
  match a, i with
  | [], _ => Raise IndexError
  | _ :: a', O => Ok (v :: a')
  | x :: a', S j => r <- set_item a' j v ;; Ok (x :: r)
  end.

(** [a[idx] = v] for a list of indices. *)
Fixpoint set_items (a : list bool) (idx : list nat) (v : bool) : outcome (list bool) :=
  match idx with
  | [] => Ok a
  | i :: idx' => a' <- set_item a i v ;; set_items a' idx' v
  end.

(** [a * c] and [a < c], elementwise. *)
Definition mul (a : list R) (c : R) : list R := map (fun x => x * c) a.
Definition lt (a : list R) (c : R) : list bool := map (fun x => Rltb x c) a.

End Np.

(** ** fwer_corrections.py *)

Module Fwer.
Import Py.

Definition _bonferroni (p_values : list R) (alpha : R)
  : outcome (list bool * list R) :=
  let n := length p_values in
  let corrected_pvals := Np.mul p_values (INR n) in
  Ok (Np.lt corrected_pvals alpha, corrected_pvals).

(** Lines 38-41 of [_sidak].  The arithmetic is exact here: where binary64
    rounds [1 - alpha] or the power to 1, the code divides by zero although
    this definition returns; what [_sidak] returns is therefore described for
    the runs that return. *)
Definition sidak_correction (n : nat) (alpha : R) : outcome R :=
  if negb (Nat.eqb n 0) then
    pw <- float_pow (1 - alpha) (1 / INR n) ;;
    div (alpha * 1) (1 - pw)
  else Ok 1.

Definition _sidak (p_values : list R) (alpha : R)
  : outcome (list bool * list R) :=
  let n := length p_values in
  correction <- sidak_correction n alpha ;;
  let corrected_pvals := Np.mul p_values correction in
  Ok (Np.lt corrected_pvals alpha, corrected_pvals).

(** Lines 62-64 of [_holm_bonferroni]. *)
Definition sorted_pvals_tup (p_values : list R) : list (nat * R) :=
  sorted snd Rltb (enumerate p_values).

Definition corrected_pvals_tup (p_values : list R) : list (nat * R) :=
  map (fun '(ind_p, factor) => (fst ind_p, snd ind_p * INR factor))
      (zip (sorted_pvals_tup p_values) (range_down (length p_values))).

(** The loop of lines 66-71: collect indices up to the first [break]. *)
Fixpoint collect_trues (alpha : R) (tups : list (nat * R)) : list nat :=
  match tups with
  | [] => []
  | (orig_ind, corrected_pval) :: rest =>
      if Rltb corrected_pval alpha
      then orig_ind :: collect_trues alpha rest
      else []
  end.

Definition _holm_bonferroni (p_values : list R) (alpha : R)
  : outcome (list bool * list R) :=
  let corrected := corrected_pvals_tup p_values in
  let trues := collect_trues alpha corrected in
  let corrected_pvals := map snd (sorted fst Nat.ltb corrected) in
  results <- Np.set_items (Np.zeros (length p_values)) trues true ;;
  Ok (results, corrected_pvals).

(** The table [routines] of [test_corrected], in the order it is written. *)
Definition routine_fn : Type := list R -> R -> outcome (list bool * list R).

Definition routines : list (String.string * routine_fn) :=
  [ ("holm_bonferroni"%string, _holm_bonferroni);
    ("bonferroni"%string, _bonferroni);
    ("sidak"%string, _sidak) ].

(** [routine in routines] and [routines[routine]]. *)
Definition contains (routine : String.string)
           (table : list (String.string * routine_fn)) : bool :=
  existsb (fun entry => String.eqb (fst entry) routine) table.

Fixpoint getitem (routine : String.string)
         (table : list (String.string * routine_fn)) : outcome routine_fn :=
  match table with
  | [] => Raise KeyError
  | (name, f) :: table' =>
      if String.eqb name routine then Ok f else getitem routine table'
  end.

Definition test_corrected (p_values : list R) (alpha : R)
           (routine : String.string) : outcome (list bool * list R) :=
  _ <- assert (contains routine routines) ;;
  let pvals := Np.array p_values in
  f <- getitem routine routines ;;
  f pvals alpha.

End Fwer.

(** ** The error function

    [math.erf(z)] is 2/sqrt(pi) times the integral of exp(-t^2) from 0 to z. *)

Definition gauss (t : R) : R := exp (- (t * t)).

Lemma gauss_continuous : forall x : R, continuity_pt gauss x.
Proof.
  intro x. unfold gauss.
  apply (continuity_pt_comp (fun t => - (t * t)) exp).
  - reg.
  - apply derivable_continuous_pt, derivable_pt_exp.
Qed.

Lemma gauss_integrable : forall a b : R, Riemann_integrable gauss a b.
Proof.
  intros a b. destruct (Rle_dec a b) as [Hab | Hab].
  - apply continuity_implies_RiemannInt; [exact Hab | intros; apply gauss_continuous].
  - apply RiemannInt_P1.
    apply continuity_implies_RiemannInt; [lra | intros; apply gauss_continuous].
Qed.

Definition erf (z : R) : R := 2 / sqrt PI * RiemannInt (gauss_integrable 0 z).

(** ** stattests.py *)

Module Stattests.
Import Py.

(** A [dict] with numeric keys: the entries in insertion order.  Assigning
    to a key that is present replaces its value in place. *)
Section Dict.
Context {V : Type}.

Fixpoint dict_get (k : R) (d : list (R * V)) : option V :=
  match d with
  | [] => None
  | (k', v) :: d' => if Reqb k' k then Some v else dict_get k d'
  end.

Fixpoint dict_set (k : R) (v : V) (d : list (R * V)) : list (R * V) :=
  match d with
  | [] => [(k, v)]
  | (k', v') :: d' =>
      if Reqb k' k then (k', v) :: d' else (k', v') :: dict_set k v d'
  end.

(** [d[k]] *)
Definition getitem (k : R) (d : list (R * V)) : outcome V :=
  match dict_get k d with
  | Some v => Ok v
  | None => Raise KeyError
  end.
End Dict.

(** [Counter(values)]: each distinct value with its number of occurrences,
    in order of first occurrence. *)
Definition Counter (values : list R) : list (R * nat) :=
  fold_left
    (fun c value =>
       dict_set value (S (match dict_get value c with Some k => k | None => O end)) c)
    values [].

(** [range(start, start - count, -1)] *)
Fixpoint range_desc (start : R) (count : nat) : list R :=
  match count with
  | O => []
  | S c => start :: range_desc (start - 1) c
  end.

(** The dict comprehension of line 9. *)
Definition position_ranks (values : list R) : list (R * R) :=
  fold_left (fun d '(i, value) => dict_set value (INR i + 1) d)
            (enumerate (sorted_reverse Rltb values)) [].

(** One turn of the loop of lines 10-11. *)
Definition average_ties (ranks : list (R * R)) (item : R * nat)
  : outcome (list (R * R)) :=
  let '(value, count) := item in
  start <- getitem value ranks ;;
  mean_rank <- div (sum (range_desc start count)) (INR count) ;;
  Ok (dict_set value mean_rank ranks).

Fixpoint for_each {S A : Type} (body : S -> A -> outcome S)
         (items : list A) (s : S) : outcome S :=
  match items with
  | [] => Ok s
  | x :: items' => s' <- body s x ;; for_each body items' s'
  end.

Definition rank (values : list R) : outcome (list (R * R)) :=
  let c := Counter values in
  let ranks := position_ranks values in
  for_each average_ties
           (filter (fun '(value, count) => Nat.ltb 1 count) c)
           ranks.

Definition z_to_p (z : R) : R := 0.5 * (1 + erf (z / sqrt 2)).

(** [U1] and [U2] of lines 21-24. *)
Definition U1 (ranks1 ranks2 : list R) : R :=
  let n1 := length ranks1 in
  let n2 := length ranks2 in
  INR n1 * INR n2 + (INR n1 * (INR n1 + 1)) / 2.0 - sum ranks1.

Definition U2 (ranks1 ranks2 : list R) : R :=
  let n1 := length ranks1 in
  let n2 := length ranks2 in
  INR n1 * INR n2 + (INR n2 * (INR n2 + 1)) / 2.0 - sum ranks2.

(** [sigma_term] of lines 30-31. *)
Definition sigma_term (ranks1 ranks2 : list R) : R :=
  let count := Counter (ranks1 ++ ranks2) in
  sum (map (fun value : nat => (INR value ^ 3 - INR value) / 12)
           (filter (fun value => Nat.ltb 1 value) (map snd count))).

(** [std] of line 32; the left factor is evaluated first. *)
Definition std (ranks1 ranks2 : list R) : outcome R :=
  let n1 := INR (length ranks1) in
  let n2 := INR (length ranks2) in
  let n := n1 + n2 in
  q <- div (n1 * n2) (n * (n - 1)) ;;
  s1 <- math_sqrt q ;;
  s2 <- math_sqrt ((n ^ 3 - n) / 12 - sigma_term ranks1 ranks2) ;;
  Ok (s1 * s2).

(** The assertion compares exact numbers here; on ranks as [rank] produces
    them (whole numbers and halves) binary64 computes the same sums exactly. *)
Definition calculate_z (ranks1 ranks2 : list R) : outcome R :=
  let n1 := INR (length ranks1) in
  let n2 := INR (length ranks2) in
  _ <- assert (Reqb (U1 ranks1 ranks2 + U2 ranks1 ranks2) (n1 * n2)) ;;
  let mean := (n1 * n2) / 2 in
  std <- std ranks1 ranks2 ;;
  let U := min_from (U1 ranks1 ranks2) [U2 ranks1 ranks2] in
  div (U - mean) std.

Definition mannwhitneyu (x1 x2 : list R) (p : R) : outcome (bool * R) :=
  rank_dict <- rank (x1 ++ x2) ;;
  x1_ranks <- mapM (fun el => getitem el rank_dict) x1 ;;
  x2_ranks <- mapM (fun el => getitem el rank_dict) x2 ;;
  z <- calculate_z x1_ranks x2_ranks ;;
  let p_val := z_to_p z in
  Ok (Rltb p_val (p / 2), p_val).

End Stattests.

(** * Properties *)

(** ** Deciding comparisons *)

Lemma Rltb_true (x y : R) : x < y -> Rltb x y = true.
Proof. intro H. unfold Rltb. destruct (Rlt_dec x y); [reflexivity | contradiction]. Qed.

Lemma Rltb_false (x y : R) : y <= x -> Rltb x y = false.
Proof. intro H. unfold Rltb. destruct (Rlt_dec x y); [lra | reflexivity]. Qed.

Lemma Rltb_lt (x y : R) : Rltb x y = true <-> x < y.
Proof.
  unfold Rltb. destruct (Rlt_dec x y); split; intro H;
    try reflexivity; try assumption; try discriminate; contradiction.
Qed.

Lemma Rltb_ge (x y : R) : Rltb x y = false <-> y <= x.
Proof.
  unfold Rltb. destruct (Rlt_dec x y); split; intro H;
    try reflexivity; try discriminate; lra.
Qed.

Lemma Reqb_true (x y : R) : x = y -> Reqb x y = true.
Proof. intro H. unfold Reqb. destruct (Req_dec_T x y); [reflexivity | contradiction]. Qed.

Lemma Reqb_false (x y : R) : x <> y -> Reqb x y = false.
Proof. intro H. unfold Reqb. destruct (Req_dec_T x y); [contradiction | reflexivity]. Qed.

Lemma Reqb_eq (x y : R) : Reqb x y = true <-> x = y.
Proof.
  unfold Reqb. destruct (Req_dec_T x y); split; intro H;
    try reflexivity; try assumption; try discriminate; contradiction.
Qed.

Lemma Reqb_neq (x y : R) : Reqb x y = false <-> x <> y.
Proof.
  unfold Reqb. destruct (Req_dec_T x y); split; intro H;
    try reflexivity; try assumption; try discriminate; contradiction.
Qed.

Lemma Reqb_refl (x : R) : Reqb x x = true.
Proof. apply Reqb_true. reflexivity. Qed.

(** Settle every comparison of the goal whose sides are numerals. *)
Ltac Rdecide :=
  repeat match goal with
    | |- context [Rltb ?a ?b] =>
        first [ rewrite (Rltb_true a b) by (simpl; lra)
              | rewrite (Rltb_false a b) by (simpl; lra) ]
    | |- context [Reqb ?a ?b] =>
        first [ rewrite (Reqb_true a b) by (simpl; lra)
              | rewrite (Reqb_false a b) by (simpl; lra) ]
    end.

Ltac Reval := repeat (progress (cbn -[INR Rltb Reqb]; Rdecide)).

(** Equality of two lists of numerals. *)
Ltac Rlist := repeat (f_equal; try (simpl; lra)).

(** ** The built-ins *)

Module PyFacts.
Import Py.

Lemma enumerate_from_length {A : Type} (l : list A) (i : nat) :
  length (enumerate_from i l) = length l.
Proof. revert i. induction l as [| x l IH]; intro i; simpl; [reflexivity | now rewrite IH]. Qed.

Lemma enumerate_from_fst {A : Type} (l : list A) (i : nat) :
  map fst (enumerate_from i l) = seq i (length l).
Proof. revert i. induction l as [| x l IH]; intro i; simpl; [reflexivity | now rewrite IH]. Qed.

Lemma enumerate_from_snd {A : Type} (l : list A) (i : nat) :
  map snd (enumerate_from i l) = l.
Proof. revert i. induction l as [| x l IH]; intro i; simpl; [reflexivity | now rewrite IH]. Qed.

Lemma enumerate_from_In {A : Type} (l : list A) (i j : nat) (x d : A) :
  In (j, x) (enumerate_from i l) ->
  (i <= j < i + length l)%nat /\ nth (j - i) l d = x.
Proof.
  revert i. induction l as [| y l IH]; intros i H; simpl in H; [contradiction |].
  destruct H as [H | H].
  - inversion H; subst. simpl. rewrite Nat.sub_diag. split; [lia | reflexivity].
  - apply IH in H. destruct H as [Hr Hn]. simpl. split; [lia |].
    replace (j - i)%nat with (S (j - S i)) by lia. exact Hn.
Qed.

Lemma enumerate_In {A : Type} (l : list A) (j : nat) (x d : A) :
  In (j, x) (enumerate l) -> (j < length l)%nat /\ nth j l d = x.
Proof.
  intro H. apply (enumerate_from_In l 0 j x d) in H.
  rewrite Nat.sub_0_r in H. destruct H as [Hr Hn]. split; [lia | exact Hn].
Qed.

Lemma range_down_length (n : nat) : length (range_down n) = n.
Proof. induction n as [| n IH]; simpl; [reflexivity | now rewrite IH]. Qed.

Lemma range_down_nth (n m : nat) :
  (m < n)%nat -> nth m (range_down n) O = (n - m)%nat.
Proof.
  revert m. induction n as [| n IH]; intros m H; [lia |].
  destruct m as [| m]; [reflexivity |].
  change (nth m (range_down n) O = (n - m)%nat). apply IH. lia.
Qed.

Lemma sum_from (l : list R) (a : R) : fold_left Rplus l a = a + sum l.
Proof.
  unfold sum. revert a. induction l as [| x l IH]; intro a; simpl.
  - lra.
  - rewrite (IH (a + x)), (IH (0 + x)). lra.
Qed.

Lemma sum_cons (x : R) (l : list R) : sum (x :: l) = x + sum l.
Proof. unfold sum at 1. simpl. rewrite sum_from. lra. Qed.

Lemma sum_nil : sum [] = 0.
Proof. reflexivity. Qed.

Lemma sum_app (l1 l2 : list R) : sum (l1 ++ l2) = sum l1 + sum l2.
Proof.
  induction l1 as [| x l1 IH]; simpl.
  - rewrite sum_nil. lra.
  - rewrite !sum_cons, IH. lra.
Qed.

(** [sorted] returns a permutation of its argument, ordered by the keys. *)
Section SortedFacts.
Context {A K : Type} (key : A -> K) (lt : K -> K -> bool) (le : K -> K -> Prop).
Hypothesis lt_le : forall a b, lt a b = true -> le a b.
Hypothesis nlt_le : forall a b, lt a b = false -> le b a.
Hypothesis le_trans : forall a b c, le a b -> le b c -> le a c.

Let key_le (x y : A) : Prop := le (key x) (key y).

Lemma insert_perm (x : A) (l : list A) : Permutation (insert key lt x l) (x :: l).
Proof.
  induction l as [| y l IH]; simpl; [apply Permutation_refl |].
  destruct (lt (key y) (key x)).
  - apply perm_trans with (y :: x :: l); [now apply perm_skip | apply perm_swap].
  - apply Permutation_refl.
Qed.

Lemma sorted_perm (l : list A) : Permutation (sorted key lt l) l.
Proof.
  induction l as [| x l IH]; simpl; [apply perm_nil |].
  apply perm_trans with (x :: sorted key lt l); [apply insert_perm | now apply perm_skip].
Qed.

Lemma sorted_length (l : list A) : length (sorted key lt l) = length l.
Proof. apply Permutation_length, sorted_perm. Qed.

Lemma insert_ordered (x : A) (l : list A) :
  StronglySorted key_le l -> StronglySorted key_le (insert key lt x l).
Proof.
  induction l as [| y l IH]; intro Hs; simpl.
  - constructor; constructor.
  - inversion Hs as [| y' l' Hl Hy]; subst.
    destruct (lt (key y) (key x)) eqn:E.
    + constructor; [now apply IH |].
      apply Forall_forall. intros z Hz.
      apply (Permutation_in _ (insert_perm x l)) in Hz.
      destruct Hz as [Hz | Hz].
      * subst z. apply lt_le. exact E.
      * rewrite Forall_forall in Hy. now apply Hy.
    + constructor; [exact Hs |].
      constructor; [apply nlt_le; exact E |].
      apply Forall_forall. intros z Hz. rewrite Forall_forall in Hy.
      apply le_trans with (key y); [apply nlt_le; exact E | now apply Hy].
Qed.

Lemma sorted_ordered (l : list A) : StronglySorted key_le (sorted key lt l).
Proof.
  induction l as [| x l IH]; simpl; [constructor | now apply insert_ordered].
Qed.

Lemma ordered_nth (l : list A) (d : A) (a b : nat) :
  StronglySorted key_le l -> (a < b < length l)%nat ->
  le (key (nth a l d)) (key (nth b l d)).
Proof.
  intro Hs. revert a b. induction Hs as [| x l Hl IH Hx]; intros a b Hab.
  - simpl in Hab. lia.
  - destruct b as [| b]; [lia |]. destruct a as [| a].
    + simpl. rewrite Forall_forall in Hx. apply Hx, nth_In. simpl in Hab. lia.
    + simpl. apply IH. simpl in Hab. lia.
Qed.
End SortedFacts.

End PyFacts.

(** ** numpy index assignment *)

Module NpFacts.

Lemma set_item_spec (a : list bool) (i : nat) :
  (i < length a)%nat ->
  exists r, Np.set_item a i true = Ok r /\ length r = length a /\
            forall j, nth j r false = (Nat.eqb j i || nth j a false)%bool.
Proof.
  revert i. induction a as [| x a IH]; intros i Hi; simpl in Hi; [lia |].
  destruct i as [| i]; simpl.
  - exists (true :: a). repeat split. intros [| j]; reflexivity.
  - destruct (IH i) as [r [Hr [Hlen Hnth]]]; [lia |].
    rewrite Hr. simpl. exists (x :: r). repeat split.
    + simpl. now rewrite Hlen.
    + intros [| j]; simpl; [reflexivity | apply Hnth].
Qed.

Lemma set_items_spec (idx : list nat) (a : list bool) :
  (forall i, In i idx -> (i < length a)%nat) ->
  exists r, Np.set_items a idx true = Ok r /\ length r = length a /\
            forall j, nth j r false = (existsb (Nat.eqb j) idx || nth j a false)%bool.
Proof.
  revert a. induction idx as [| i idx IH]; intros a Hin; simpl.
  - exists a. repeat split.
  - destruct (set_item_spec a i) as [a' [Ha' [Hlen Hnth]]]; [apply Hin; now left |].
    rewrite Ha'. simpl.
    destruct (IH a') as [r [Hr [Hlen' Hnth']]].
    + intros j Hj. rewrite Hlen. apply Hin. now right.
    + exists r. repeat split; [exact Hr | congruence |].
      intro j. rewrite Hnth', Hnth.
      destruct (Nat.eqb j i), (existsb (Nat.eqb j) idx); reflexivity.
Qed.

Lemma zeros_nth (n j : nat) : nth j (Np.zeros n) false = false.
Proof.
  unfold Np.zeros. revert j. induction n as [| n IH]; intros [| j]; simpl; auto.
Qed.

Lemma zeros_length (n : nat) : length (Np.zeros n) = n.
Proof. apply repeat_length. Qed.

End NpFacts.

(** ** fwer_corrections.py: the corrections *)

Module FwerSpec.
Import Py Fwer PyFacts NpFacts.

Definition d0 : nat * R := (O, 0).

Lemma Rltb_le (a b : R) : Rltb a b = true -> a <= b.
Proof. intro H. apply Rltb_lt in H. lra. Qed.

Lemma Rltb_ge_le (a b : R) : Rltb a b = false -> b <= a.
Proof. intro H. now apply Rltb_ge. Qed.

Section Holm.
Variable p_values : list R.
Let n := length p_values.
Let s := sorted_pvals_tup p_values.
Let cs := corrected_pvals_tup p_values.

Lemma sorted_pvals_perm : Permutation s (enumerate p_values).
Proof. apply sorted_perm. Qed.

Lemma sorted_pvals_length : length s = n.
Proof.
  unfold s, sorted_pvals_tup. rewrite sorted_length.
  apply enumerate_from_length.
Qed.

Lemma sorted_pvals_ordered (a b : nat) :
  (a <= b < n)%nat -> snd (nth a s d0) <= snd (nth b s d0).
Proof.
  intro H. destruct (Nat.eq_dec a b) as [-> | Hne]; [lra |].
  apply (ordered_nth snd Rle) with (l := s).
  - apply sorted_ordered; [exact Rltb_le | exact Rltb_ge_le | exact Rle_trans].
  - rewrite sorted_pvals_length. lia.
Qed.

Lemma sorted_pvals_entry (m : nat) :
  (m < n)%nat ->
  (fst (nth m s d0) < n)%nat /\ snd (nth m s d0) = nth (fst (nth m s d0)) p_values 0.
Proof.
  intro Hm.
  assert (Hin : In (nth m s d0) s) by (apply nth_In; rewrite sorted_pvals_length; exact Hm).
  apply (Permutation_in _ sorted_pvals_perm) in Hin.
  destruct (nth m s d0) as [i x] eqn:E. simpl.
  apply (enumerate_In p_values i x 0) in Hin. destruct Hin as [Hi Hx].
  split; [exact Hi | symmetry; exact Hx].
Qed.

Lemma sorted_pvals_indices : Permutation (map fst s) (seq 0 n).
Proof.
  unfold n. rewrite <- (enumerate_from_fst p_values 0).
  apply Permutation_map, sorted_pvals_perm.
Qed.

Lemma sorted_pvals_NoDup : NoDup (map fst s).
Proof.
  apply (Permutation_NoDup (Permutation_sym sorted_pvals_indices)), seq_NoDup.
Qed.

(** Every original index sits at some position of the sorted scan. *)
Lemma sorted_pvals_position (i : nat) :
  (i < n)%nat -> exists m, (m < n)%nat /\ fst (nth m s d0) = i.
Proof.
  intro Hi.
  assert (Hin : In i (map fst s)).
  { apply (Permutation_in _ (Permutation_sym sorted_pvals_indices)).
    apply in_seq. lia. }
  apply in_map_iff in Hin. destruct Hin as [e [He Hin]].
  apply (In_nth _ _ d0) in Hin. destruct Hin as [m [Hm Hnth]].
  exists m. rewrite sorted_pvals_length in Hm. split; [exact Hm |].
  now rewrite Hnth.
Qed.

(** Two positions of the scan that hold the same index are the same. *)
Lemma sorted_pvals_inj (a b : nat) :
  (a < n)%nat -> (b < n)%nat -> fst (nth a s d0) = fst (nth b s d0) -> a = b.
Proof.
  intros Ha Hb H.
  apply (proj1 (NoDup_nth (map fst s) O) sorted_pvals_NoDup);
    try (rewrite length_map, sorted_pvals_length; assumption).
  change O with (fst d0). now rewrite !map_nth.
Qed.

Lemma corrected_length : length cs = n.
Proof.
  unfold cs, corrected_pvals_tup, zip.
  rewrite length_map, length_combine, range_down_length.
  fold s. rewrite sorted_pvals_length. apply Nat.min_id.
Qed.

Lemma corrected_nth (m : nat) :
  (m < n)%nat ->
  nth m cs d0 = (fst (nth m s d0), snd (nth m s d0) * INR (n - m)).
Proof.
  intro Hm. unfold cs, corrected_pvals_tup, zip. fold s. fold n.
  set (f := fun '(ind_p, factor) => (fst (A:=nat) (B:=R) ind_p, snd ind_p * INR factor)).
  rewrite (nth_indep _ d0 (f (d0, O))).
  - rewrite map_nth, combine_nth.
    + unfold f. now rewrite range_down_nth.
    + now rewrite sorted_pvals_length, range_down_length.
  - rewrite length_map, length_combine, range_down_length, sorted_pvals_length.
    now rewrite Nat.min_id.
Qed.
End Holm.

(** The loop keeps a prefix of the scan. *)
Lemma collect_trues_prefix (alpha : R) (tups : list (nat * R)) :
  let k := length (collect_trues alpha tups) in
  (k <= length tups)%nat /\
  collect_trues alpha tups = map fst (firstn k tups) /\
  (forall m, (m < k)%nat -> snd (nth m tups d0) < alpha) /\
  ((k < length tups)%nat -> alpha <= snd (nth k tups d0)).
Proof.
  induction tups as [| [i c] tups IH]; simpl.
  - split; [lia | split; [reflexivity | split; intros; lia]].
  - destruct (Rltb c alpha) eqn:E; simpl.
    + destruct IH as [Hk [Hc [Hlt Hge]]].
      split; [lia | split; [now rewrite <- Hc | split]].
      * intros [| m] Hm; simpl; [now apply Rltb_lt | apply Hlt; lia].
      * intro H. apply Hge. lia.
    + split; [lia | split; [reflexivity | split]].
      * intros m Hm. lia.
      * intros _. now apply Rltb_ge.
Qed.

Lemma firstn_fst_In (k : nat) (tups : list (nat * R)) (j : nat) :
  In j (map fst (firstn k tups)) <->
  exists m, (m < k)%nat /\ (m < length tups)%nat /\ fst (nth m tups d0) = j.
Proof.
  revert k. induction tups as [| e tups IH]; intro k.
  - rewrite firstn_nil. simpl. split; [contradiction | intros [m [_ [H _]]]; lia].
  - destruct k as [| k]; simpl.
    + split; [contradiction | intros [m [H _]]; lia].
    + rewrite IH. split.
      * intros [H | [m [Hk [Hl Hm]]]].
        -- exists O. repeat split; [lia | lia | exact H].
        -- exists (S m). repeat split; [lia | lia | exact Hm].
      * intros [[| m] [Hk [Hl Hm]]]; [now left | right].
        exists m. repeat split; [lia | lia | exact Hm].
Qed.

(** What [_holm_bonferroni] returns, in terms of the sorted scan: [k] is the
    number of leading positions whose corrected value is below [alpha]. *)
Lemma holm_spec (p_values : list R) (alpha : R) :
  let n := length p_values in
  let cs := corrected_pvals_tup p_values in
  let k := length (collect_trues alpha cs) in
  exists significant,
    _holm_bonferroni p_values alpha
    = Ok (significant, map snd (sorted fst Nat.ltb cs)) /\
    length significant = n /\
    (k <= n)%nat /\
    (forall m, (m < k)%nat -> snd (nth m cs d0) < alpha) /\
    ((k < n)%nat -> alpha <= snd (nth k cs d0)) /\
    (forall m, (m < n)%nat ->
               nth (fst (nth m cs d0)) significant false = Nat.ltb m k).
Proof.
  intros n cs k.
  destruct (collect_trues_prefix alpha cs) as [Hk [Hc [Hlt Hge]]].
  fold k in Hk, Hc, Hlt, Hge.
  assert (Hlen : length cs = n) by apply corrected_length.
  assert (Hfst : forall m, (m < n)%nat ->
                           fst (nth m cs d0) = fst (nth m (sorted_pvals_tup p_values) d0)).
  { intros m Hm. unfold cs. now rewrite corrected_nth. }
  destruct (set_items_spec (collect_trues alpha cs) (Np.zeros n)) as [r [Hr [Hrl Hrn]]].
  { intros i Hi. rewrite Hc in Hi. apply firstn_fst_In in Hi.
    destruct Hi as [m [_ [Hm Hi]]]. rewrite zeros_length, <- Hi.
    rewrite Hlen in Hm. rewrite (Hfst m Hm).
    now apply sorted_pvals_entry. }
  exists r. unfold _holm_bonferroni. fold cs. fold n. rewrite Hr. simpl.
  split; [reflexivity |].
  split; [now rewrite Hrl, zeros_length |].
  split; [now rewrite <- Hlen |].
  split; [exact Hlt |].
  split; [intro H; apply Hge; now rewrite Hlen |].
  intros m Hm. rewrite Hrn, zeros_nth, orb_false_r.
  destruct (Nat.ltb m k) eqn:E.
  - apply Nat.ltb_lt in E. apply existsb_exists.
    exists (fst (nth m cs d0)). split; [| apply Nat.eqb_refl].
    rewrite Hc. apply firstn_fst_In. exists m. repeat split; [exact E | lia].
  - apply Nat.ltb_ge in E.
    destruct (existsb _ _) eqn:X; [| reflexivity].
    apply existsb_exists in X. destruct X as [j [Hj Hjm]].
    apply Nat.eqb_eq in Hjm. subst j.
    rewrite Hc in Hj. apply firstn_fst_In in Hj.
    destruct Hj as [m' [Hm'k [Hm'l Hm']]].
    rewrite Hlen in Hm'l. rewrite (Hfst m Hm), (Hfst m' Hm'l) in Hm'.
    apply sorted_pvals_inj in Hm'; [lia | assumption | assumption].
Qed.


(** *** The worked scenario *)

Definition scenario : list R := [0.01; 0.04; 0.03; 0.005].

Lemma scenario_sorted :
  sorted_pvals_tup scenario
  = [(3%nat, 0.005); (0%nat, 0.01); (2%nat, 0.03); (1%nat, 0.04)].
Proof. unfold sorted_pvals_tup, scenario, enumerate, sorted. Reval. reflexivity. Qed.

Lemma scenario_corrected :
  corrected_pvals_tup scenario
  = [(3%nat, 0.005 * INR 4); (0%nat, 0.01 * INR 3);
     (2%nat, 0.03 * INR 2); (1%nat, 0.04 * INR 1)].
Proof. unfold corrected_pvals_tup. rewrite scenario_sorted. reflexivity. Qed.

Lemma scenario_holm :
  _holm_bonferroni scenario 0.05
  = Ok ([true; false; false; true],
        [0.01 * INR 3; 0.04 * INR 1; 0.03 * INR 2; 0.005 * INR 4]).
Proof.
  unfold _holm_bonferroni. rewrite scenario_corrected. unfold sorted.
  Reval. reflexivity.
Qed.

(** C1, as the specification states it, fails: the flags [True, True, False,
    False] are those of the sorted scan; in original index order
    [_holm_bonferroni] does not return them for the scenario. *)
Lemma holm_scenario_not_sorted_order_flags :
  ~ (exists corrected,
        test_corrected scenario 0.05 "holm_bonferroni"
        = Ok ([true; true; false; false], corrected)).
Proof.
  intros [corrected H].
  change (test_corrected scenario 0.05 "holm_bonferroni")
    with (_holm_bonferroni scenario 0.05) in H.
  rewrite scenario_holm in H. discriminate H.
Qed.

(** C1, amended: for p_values = [0.01, 0.04, 0.03, 0.005] and alpha = 0.05
    the p-values sort ascending to [0.005, 0.01, 0.03, 0.04], the multipliers
    are [4, 3, 2, 1], the corrected sorted values are [0.02, 0.03, 0.06,
    0.04], the loop marks the original indices 3 and 0 (the positions of 0.02
    and 0.03) and stops at 0.06, and the significance vector returned in
    original index order is [True, False, False, True], next to the corrected
    p-values [0.03, 0.04, 0.06, 0.02]. *)
Theorem holm_scenario :
  map snd (sorted_pvals_tup scenario) = [0.005; 0.01; 0.03; 0.04] /\
  range_down (length scenario) = [4; 3; 2; 1]%nat /\
  map snd (corrected_pvals_tup scenario) = [0.02; 0.03; 0.06; 0.04] /\
  collect_trues 0.05 (corrected_pvals_tup scenario) = [3; 0]%nat /\
  test_corrected scenario 0.05 "holm_bonferroni"%string
  = Ok ([true; false; false; true], [0.03; 0.04; 0.06; 0.02]).
Proof.
  split; [now rewrite scenario_sorted |].
  split; [reflexivity |].
  split; [rewrite scenario_corrected; simpl map; Rlist |].
  split; [rewrite scenario_corrected; Reval; reflexivity |].
  change (test_corrected scenario 0.05 "holm_bonferroni"%string)
    with (_holm_bonferroni scenario 0.05).
  rewrite scenario_holm. Rlist.
Qed.

(** *** The step-down rule *)

(** C3: for every p-value vector and alpha, Holm-Bonferroni marks a prefix of
    the ascending scan: with [k] the first position of the scan whose
    corrected value is [>= alpha] (or its length when there is none), the
    original index at position [m] is significant exactly when [m < k],
    whatever the corrected values after [k]; and there is an input with
    [corrected_pvals[i] < alpha] and [significant[i]] false. *)
Theorem holm_step_down :
  (forall (p_values : list R) (alpha : R),
      let n := length p_values in
      let s := sorted_pvals_tup p_values in
      let cs := corrected_pvals_tup p_values in
      exists significant corrected_pvals k,
        _holm_bonferroni p_values alpha = Ok (significant, corrected_pvals) /\
        length cs = n /\
        (forall a b, (a <= b < n)%nat -> snd (nth a s d0) <= snd (nth b s d0)) /\
        (forall m, (m < n)%nat ->
                   nth m cs d0 = (fst (nth m s d0), snd (nth m s d0) * INR (n - m))) /\
        (k <= n)%nat /\
        (forall m, (m < k)%nat -> snd (nth m cs d0) < alpha) /\
        ((k < n)%nat -> alpha <= snd (nth k cs d0)) /\
        (forall m, (m < n)%nat ->
                   nth (fst (nth m cs d0)) significant false = Nat.ltb m k)) /\
  (exists p_values alpha significant corrected_pvals i,
      _holm_bonferroni p_values alpha = Ok (significant, corrected_pvals) /\
      (i < length p_values)%nat /\
      nth i corrected_pvals 0 < alpha /\
      nth i significant true = false).
Proof.
  split.
  - intros p_values alpha n s cs.
    destruct (holm_spec p_values alpha) as [sig [Hr [Hl [Hk [Hlt [Hge Hsig]]]]]].
    exists sig, (map snd (sorted fst Nat.ltb cs)), (length (collect_trues alpha cs)).
    split; [exact Hr |].
    split; [apply corrected_length |].
    split; [apply sorted_pvals_ordered |].
    split; [apply corrected_nth |].
    repeat split; assumption.
  - exists scenario, 0.05. eexists. eexists. exists 1%nat.
    split; [apply scenario_holm |].
    split; [simpl; lia |].
    split; [simpl; lra | reflexivity].
Qed.

Lemma Forall_nth_nonneg (l : list R) (i : nat) :
  Forall (fun x => 0 <= x) l -> 0 <= nth i l 0.
Proof.
  intro H. revert i. induction H as [| x l Hx Hl IH]; intros [| i]; simpl; auto; lra.
Qed.

(** C7: for every vector of p-values and every alpha, in the
    Holm-Bonferroni result [significant[i]] true implies [significant[j]]
    true for every index [j] with [p_values[j] <= p_values[i]].  The inputs
    are those of the data model, p-values in [0, 1] and alpha in (0, 1); the
    proof needs only one of the two: the p-values non-negative, or alpha
    positive. *)
Theorem holm_monotone (p_values : list R) (alpha : R) :
  Forall (fun x => 0 <= x) p_values \/ 0 < alpha ->
  exists significant corrected_pvals,
    _holm_bonferroni p_values alpha = Ok (significant, corrected_pvals) /\
    length significant = length p_values /\
    forall i j,
      (i < length p_values)%nat -> (j < length p_values)%nat ->
      nth i significant false = true ->
      nth j p_values 0 <= nth i p_values 0 ->
      nth j significant false = true.
Proof.
  intro Hpos.
  destruct (holm_spec p_values alpha) as [sig [Hr [Hl [Hk [Hlt [Hge Hsig]]]]]].
  set (n := length p_values) in *.
  set (cs := corrected_pvals_tup p_values) in *.
  set (k := length (collect_trues alpha cs)) in *.
  set (s := sorted_pvals_tup p_values).
  exists sig, (map snd (sorted fst Nat.ltb cs)).
  split; [exact Hr |]. split; [exact Hl |].
  intros i j Hi Hj Hsi Hle.
  destruct (sorted_pvals_position p_values i Hi) as [mi [Hmi Hfi]].
  destruct (sorted_pvals_position p_values j Hj) as [mj [Hmj Hfj]].
  assert (Hci : forall m, (m < n)%nat ->
                  nth m cs d0 = (fst (nth m s d0), snd (nth m s d0) * INR (n - m)))
    by (intros m Hm; apply corrected_nth; exact Hm).
  assert (Hik : (mi < k)%nat).
  { apply Nat.ltb_lt. rewrite <- (Hsig mi Hmi), (Hci mi Hmi). simpl.
    fold s in Hfi. now rewrite Hfi. }
  assert (Hjk : (mj < k)%nat).
  { destruct (Nat.lt_ge_cases mj k) as [H | H]; [exact H | exfalso].
    assert (Hkn : (k < n)%nat) by lia.
    specialize (Hge Hkn). specialize (Hlt mi Hik).
    rewrite (Hci k Hkn) in Hge. rewrite (Hci mi Hmi) in Hlt. simpl in Hge, Hlt.
    destruct (sorted_pvals_entry p_values mi Hmi) as [_ Hpi].
    destruct (sorted_pvals_entry p_values mj Hmj) as [_ Hpj].
    fold s in Hpi, Hpj, Hfi, Hfj. rewrite Hfi in Hpi. rewrite Hfj in Hpj.
    assert (H1 : snd (nth mi s d0) <= snd (nth k s d0))
      by (apply sorted_pvals_ordered; fold n; lia).
    assert (H2 : snd (nth k s d0) <= snd (nth mj s d0))
      by (apply sorted_pvals_ordered; fold n; lia).
    assert (Hf : INR (n - k) <= INR (n - mi)) by (apply le_INR; lia).
    assert (Heq : snd (nth k s d0) = snd (nth mi s d0)) by lra.
    rewrite Heq in Hge. rewrite Hpi in Hge, Hlt.
    destruct (Rle_dec 0 (nth i p_values 0)) as [H0 | H0].
    - assert (nth i p_values 0 * INR (n - k) <= nth i p_values 0 * INR (n - mi))
        by (apply Rmult_le_compat_l; assumption).
      lra.
    - destruct Hpos as [Hpos | Hpos].
      + apply H0. now apply Forall_nth_nonneg.
      + pose proof (pos_INR (n - k)). nra. }
  rewrite <- Hfj. fold s.
  replace (fst (nth mj s d0)) with (fst (nth mj cs d0))
    by (rewrite (Hci mj Hmj); reflexivity).
  rewrite (Hsig mj Hmj). now apply Nat.ltb_lt.
Qed.

Lemma holm_monotone_witness :
  (Forall (fun x => 0 <= x) scenario \/ 0 < 0.05) /\
  exists significant corrected_pvals,
    _holm_bonferroni scenario 0.05 = Ok (significant, corrected_pvals) /\
    length significant = length scenario /\
    forall i j,
      (i < length scenario)%nat -> (j < length scenario)%nat ->
      nth i significant false = true ->
      nth j scenario 0 <= nth i scenario 0 ->
      nth j significant false = true.
Proof.
  assert (H : Forall (fun x => 0 <= x) scenario \/ 0 < 0.05)
    by (left; unfold scenario; repeat constructor; lra).
  split; [exact H | exact (holm_monotone scenario 0.05 H)].
Defined.


(** Outside the data model the order can break: two tied negative entries
    under a negative [alpha]. *)
Example holm_negative_ties :
  _holm_bonferroni [-1; -1] (-1.5) = Ok ([true; false], [-2; -1]).
Proof.
  unfold _holm_bonferroni, corrected_pvals_tup, sorted_pvals_tup, enumerate, zip, sorted.
  Reval. Rlist.
Qed.

(** *** The elementwise corrections *)

Lemma nth_map_in {A B : Type} (f : A -> B) (l : list A) (i : nat) (d : A) (d' : B) :
  (i < length l)%nat -> nth i (map f l) d' = f (nth i l d).
Proof.
  intro H. rewrite (nth_indep _ d' (f d)) by (now rewrite length_map).
  apply map_nth.
Qed.

Lemma Rpower_lt_1 (x y : R) : 0 < x < 1 -> 0 < y -> Rpower x y < 1.
Proof.
  intros Hx Hy.
  assert (H1 : Rpower 1 y = 1)
    by (unfold Rpower; now rewrite ln_1, Rmult_0_r, exp_0).
  apply Rlt_le_trans with (Rpower 1 y); [| rewrite H1; lra].
  apply Rlt_Rpower_l; [exact Hy | lra].
Qed.

Lemma sidak_correction_value (n : nat) (alpha : R) :
  0 < alpha < 1 ->
  sidak_correction n alpha
  = Ok (if Nat.eqb n 0 then 1 else alpha / (1 - Rpower (1 - alpha) (1 / INR n))).
Proof.
  intro Ha. unfold sidak_correction.
  destruct (Nat.eqb n 0) eqn:E; simpl; [reflexivity |].
  apply Nat.eqb_neq in E.
  assert (Hn : 0 < INR n) by (apply lt_0_INR; lia).
  assert (Hy : 0 < 1 / INR n) by (apply Rdiv_lt_0_compat; lra).
  assert (Hp : Rpower (1 - alpha) (1 / INR n) < 1) by (apply Rpower_lt_1; lra).
  unfold float_pow. rewrite (Rltb_true 0 (1 - alpha)) by lra. simpl.
  unfold div. rewrite Reqb_false by lra.
  now rewrite Rmult_1_r.
Qed.

(** What a returned correction factor is. *)
Lemma sidak_correction_returned (n : nat) (alpha correction : R) :
  sidak_correction n alpha = Ok correction ->
  (n = O -> correction = 1) /\
  (n <> O -> alpha < 1 ->
   correction = alpha / (1 - Rpower (1 - alpha) (1 / INR n))).
Proof.
  unfold sidak_correction. intro H.
  destruct (Nat.eqb n 0) eqn:E; cbn [negb] in H.
  - apply Nat.eqb_eq in E. inversion H. split; [reflexivity | intro; contradiction].
  - apply Nat.eqb_neq in E. split; [intro; contradiction |]. intros _ Ha.
    unfold float_pow in H. rewrite (Rltb_true 0 (1 - alpha)) in H by lra.
    cbn [bind] in H. unfold div in H.
    destruct (Reqb _ 0); [discriminate |].
    inversion H. now rewrite Rmult_1_r.
Qed.

Lemma sidak_returned (p_values : list R) (alpha : R)
      (significant : list bool) (corrected : list R) :
  _sidak p_values alpha = Ok (significant, corrected) ->
  exists correction,
    sidak_correction (length p_values) alpha = Ok correction /\
    significant = Np.lt (Np.mul p_values correction) alpha /\
    corrected = Np.mul p_values correction.
Proof.
  unfold _sidak. intro H.
  destruct (sidak_correction (length p_values) alpha) as [c | e];
    cbn [bind] in H; [| discriminate].
  inversion H. exists c. repeat split.
Qed.

(** C8: for every p-value vector of length n and every alpha, Bonferroni
    returns [corrected[i] = p_values[i] * n]; whenever Sidak returns (its
    division can fail), it returns [corrected[i] = p_values[i] * correction]
    with [correction = alpha / (1 - (1 - alpha)^(1/n))] (for [alpha < 1], the
    base of the power being positive), and 1 when [n = 0]; and for both
    [significant[i]] is [corrected[i] < alpha] at every index. *)
Theorem bonferroni_sidak_elementwise (p_values : list R) (alpha : R) :
  let n := length p_values in
  (exists significant corrected,
      _bonferroni p_values alpha = Ok (significant, corrected) /\
      length significant = n /\ length corrected = n /\
      forall i, (i < n)%nat ->
                nth i corrected 0 = nth i p_values 0 * INR n /\
                nth i significant false = Rltb (nth i corrected 0) alpha) /\
  (forall significant corrected,
      _sidak p_values alpha = Ok (significant, corrected) ->
      exists correction,
        sidak_correction n alpha = Ok correction /\
        (n = O -> correction = 1) /\
        (n <> O -> alpha < 1 ->
         correction = alpha / (1 - Rpower (1 - alpha) (1 / INR n))) /\
        length significant = n /\ length corrected = n /\
        forall i, (i < n)%nat ->
                  nth i corrected 0 = nth i p_values 0 * correction /\
                  nth i significant false = Rltb (nth i corrected 0) alpha).
Proof.
  intro n. split.
  - exists (Np.lt (Np.mul p_values (INR n)) alpha), (Np.mul p_values (INR n)).
    split; [reflexivity |].
    unfold Np.lt, Np.mul. rewrite !length_map.
    split; [reflexivity | split; [reflexivity |]].
    intros i Hi. split.
    + now apply (nth_map_in (fun x => x * INR n)).
    + now apply (nth_map_in (fun x => Rltb x alpha)); rewrite length_map.
  - intros significant corrected H.
    destruct (sidak_returned _ _ _ _ H) as [c [Hc [Hs Hcorr]]]. fold n in Hc.
    destruct (sidak_correction_returned n alpha c Hc) as [H0 H1].
    exists c. split; [exact Hc |]. split; [exact H0 |]. split; [exact H1 |].
    subst significant corrected.
    unfold Np.lt, Np.mul. rewrite !length_map.
    split; [reflexivity | split; [reflexivity |]].
    intros i Hi. split.
    + now apply (nth_map_in (fun x => x * c)).
    + now apply (nth_map_in (fun x => Rltb x alpha)); rewrite length_map.
Qed.

(** The factor of [_sidak] for four p-values at [alpha = 0.05]. *)
Definition scenario_factor : R := 0.05 / (1 - Rpower (1 - 0.05) (1 / INR 4)).

Lemma scenario_sidak :
  _sidak scenario 0.05
  = Ok (Np.lt (Np.mul scenario scenario_factor) 0.05, Np.mul scenario scenario_factor).
Proof.
  unfold _sidak. rewrite sidak_correction_value by lra. reflexivity.
Qed.

Lemma bonferroni_sidak_elementwise_witness :
  _sidak scenario 0.05
  = Ok (Np.lt (Np.mul scenario scenario_factor) 0.05, Np.mul scenario scenario_factor) /\
  exists correction,
    sidak_correction 4 0.05 = Ok correction /\
    (4%nat = O -> correction = 1) /\
    (4%nat <> O -> 0.05 < 1 ->
     correction = 0.05 / (1 - Rpower (1 - 0.05) (1 / INR 4))) /\
    length (Np.lt (Np.mul scenario scenario_factor) 0.05) = 4%nat /\
    length (Np.mul scenario scenario_factor) = 4%nat /\
    forall i, (i < 4)%nat ->
              nth i (Np.mul scenario scenario_factor) 0 = nth i scenario 0 * correction /\
              nth i (Np.lt (Np.mul scenario scenario_factor) 0.05) false
              = Rltb (nth i (Np.mul scenario scenario_factor) 0) 0.05.
Proof.
  split; [exact scenario_sidak |].
  exact (proj2 (bonferroni_sidak_elementwise scenario 0.05) _ _ scenario_sidak).
Defined.

(** The scenario of the specification for Bonferroni. *)
Example bonferroni_scenario :
  test_corrected scenario 0.05 "bonferroni"
  = Ok ([true; false; false; true], [0.04; 0.16; 0.12; 0.02]).
Proof.
  change (test_corrected scenario 0.05 "bonferroni")
    with (_bonferroni scenario 0.05).
  unfold _bonferroni, Np.lt, Np.mul, scenario. Reval. Rlist.
Qed.

(** *** The dispatcher *)

Definition recognized : list string := ["holm_bonferroni"; "bonferroni"; "sidak"]%string.

(** C9: a routine name outside "holm_bonferroni", "bonferroni", "sidak"
    makes [test_corrected] fail at its assertion, before any routine is
    looked up or called; each of the three names runs the routine of that
    name on the vector made from the input. *)
Theorem test_corrected_dispatch (p_values : list R) (alpha : R) (routine : string) :
  (~ In routine recognized ->
   test_corrected p_values alpha routine = Raise AssertionError) /\
  test_corrected p_values alpha "holm_bonferroni"
  = _holm_bonferroni (Np.array p_values) alpha /\
  test_corrected p_values alpha "bonferroni"
  = _bonferroni (Np.array p_values) alpha /\
  test_corrected p_values alpha "sidak" = _sidak (Np.array p_values) alpha.
Proof.
  split; [| repeat split].
  intro H. unfold test_corrected, contains, routines, existsb, fst.
  assert (H1 : String.eqb "holm_bonferroni" routine = false)
    by (apply String.eqb_neq; intro E; apply H; subst; simpl; auto).
  assert (H2 : String.eqb "bonferroni" routine = false)
    by (apply String.eqb_neq; intro E; apply H; subst; simpl; auto).
  assert (H3 : String.eqb "sidak" routine = false)
    by (apply String.eqb_neq; intro E; apply H; subst; simpl; auto).
  rewrite H1, H2, H3. reflexivity.
Qed.

Lemma test_corrected_dispatch_witness :
  ~ In "fdr"%string recognized /\
  test_corrected scenario 0.05 "fdr" = Raise AssertionError.
Proof.
  assert (H : ~ In "fdr"%string recognized).
  { unfold recognized. simpl. intros [H | [H | [H | H]]];
      try discriminate H; exact H. }
  split; [exact H | exact (proj1 (test_corrected_dispatch scenario 0.05 "fdr") H)].
Defined.

End FwerSpec.

(** ** stattests.py: ranks *)

Module RankSpec.
Import Py Stattests PyFacts.

(** *** Dictionaries *)

Section DictFacts.
Context {V : Type}.
Implicit Types (d : list (R * V)) (k : R) (v : V).

Lemma dict_get_set_same k v d : dict_get k (dict_set k v d) = Some v.
Proof.
  induction d as [| [k' v'] d IH]; simpl.
  - now rewrite Reqb_refl.
  - destruct (Reqb k' k) eqn:E; simpl; rewrite E; [reflexivity | exact IH].
Qed.

Lemma dict_get_set_other k k' v d :
  k <> k' -> dict_get k (dict_set k' v d) = dict_get k d.
Proof.
  intro Hne. induction d as [| [k0 v0] d IH]; simpl.
  - rewrite Reqb_false; [reflexivity | congruence].
  - destruct (Reqb k0 k') eqn:E; simpl.
    + apply Reqb_eq in E. subst k0.
      rewrite Reqb_false; [reflexivity | congruence].
    + destruct (Reqb k0 k); [reflexivity | exact IH].
Qed.

Lemma dict_get_In k v d : dict_get k d = Some v -> In (k, v) d.
Proof.
  induction d as [| [k' v'] d IH]; simpl; [discriminate |].
  destruct (Reqb k' k) eqn:E.
  - apply Reqb_eq in E. subst k'. intro H. inversion H. now left.
  - intro H. right. now apply IH.
Qed.

Lemma dict_get_None k d : dict_get k d = None <-> ~ In k (map fst d).
Proof.
  induction d as [| [k' v'] d IH]; simpl; [tauto |].
  destruct (Reqb k' k) eqn:E.
  - apply Reqb_eq in E. split; [discriminate | intro H; exfalso; apply H; now left].
  - apply Reqb_neq in E. rewrite IH. tauto.
Qed.

Lemma dict_In_get k v d : NoDup (map fst d) -> In (k, v) d -> dict_get k d = Some v.
Proof.
  induction d as [| [k' v'] d IH]; simpl; intros Hnd Hin; [contradiction |].
  inversion Hnd as [| a l Hk Hd]; subst.
  destruct Hin as [Hin | Hin].
  - inversion Hin; subst. now rewrite Reqb_refl.
  - rewrite Reqb_false; [now apply IH |].
    intro E. subst k'. apply Hk. apply in_map_iff. now exists (k, v).
Qed.

Lemma dict_set_keys k v d :
  map fst (dict_set k v d)
  = if existsb (fun k' => Reqb k' k) (map fst d) then map fst d else map fst d ++ [k].
Proof.
  induction d as [| [k' v'] d IH]; simpl; [reflexivity |].
  destruct (Reqb k' k) eqn:E; simpl; [reflexivity |].
  rewrite IH. now destruct (existsb _ _).
Qed.

Lemma dict_set_NoDup k v d : NoDup (map fst d) -> NoDup (map fst (dict_set k v d)).
Proof.
  intro H. rewrite dict_set_keys.
  destruct (existsb _ _) eqn:E; [exact H |].
  apply NoDup_app; [exact H | constructor; [intros [] | constructor] |].
  intros x Hx [Hk | []]. subst x.
  assert (X : existsb (fun k' => Reqb k' k) (map fst d) = true)
    by (apply existsb_exists; exists k; split; [exact Hx | apply Reqb_refl]).
  congruence.
Qed.
End DictFacts.

(** *** Counting *)

Definition count_eq (v : R) (l : list R) : nat :=
  length (filter (fun w => Reqb w v) l).
Definition count_gt (v : R) (l : list R) : nat :=
  length (filter (fun w => Rltb v w) l).
Definition count_lt (v : R) (l : list R) : nat :=
  length (filter (fun w => Rltb w v) l).

(** The rank the specification gives a value [v] of the pooled list [l]: its
    last 1-based position [p] in the descending order, lowered by
    [(count - 1) / 2]. *)
Definition last_position (v : R) (l : list R) : nat := count_gt v l + count_eq v l.

Definition mean_rank (l : list R) (v : R) : R :=
  INR (last_position v l) - (INR (count_eq v l) - 1) / 2.

Lemma filter_length_perm {A : Type} (f : A -> bool) (l l' : list A) :
  Permutation l l' -> length (filter f l) = length (filter f l').
Proof.
  induction 1 as [| x l l' _ IH | x y l | l l' l'' _ IH1 _ IH2]; simpl.
  - reflexivity.
  - destruct (f x); simpl; now rewrite IH.
  - destruct (f x), (f y); reflexivity.
  - congruence.
Qed.

Lemma count_eq_pos (v : R) (l : list R) : In v l <-> (0 < count_eq v l)%nat.
Proof.
  unfold count_eq. induction l as [| x l IH]; simpl; [split; [tauto | lia] |].
  destruct (Reqb x v) eqn:E; simpl.
  - apply Reqb_eq in E. split; [lia | now left].
  - apply Reqb_neq in E. rewrite <- IH. split; [intros [H | H]; [congruence | exact H] | tauto].
Qed.

Lemma count_trichotomy (v : R) (l : list R) :
  (count_gt v l + count_eq v l + count_lt v l = length l)%nat.
Proof.
  unfold count_gt, count_eq, count_lt. induction l as [| x l IH]; simpl; [reflexivity |].
  destruct (Rlt_dec v x) as [H | H]; [| destruct (Rlt_dec x v) as [H' | H']].
  - rewrite (Rltb_true v x), (Reqb_false x v), (Rltb_false x v) by lra. simpl. lia.
  - rewrite (Rltb_false v x), (Reqb_false x v), (Rltb_true x v) by lra. simpl. lia.
  - rewrite (Rltb_false v x), (Reqb_true x v), (Rltb_false x v) by lra. simpl. lia.
Qed.

(** *** The descending order *)

Definition descending (l : list R) : Prop := StronglySorted (fun a b => b <= a) l.

Lemma sorted_reverse_perm (values : list R) :
  Permutation (sorted_reverse Rltb values) values.
Proof. apply sorted_perm. Qed.

Lemma sorted_reverse_descending (values : list R) :
  descending (sorted_reverse Rltb values).
Proof.
  unfold descending, sorted_reverse.
  apply (sorted_ordered (fun x : R => x) (fun a b => Rltb b a) (fun a b => b <= a)).
  - intros a b H. apply Rltb_lt in H. lra.
  - intros a b H. now apply Rltb_ge in H.
  - intros a b c H1 H2. lra.
Qed.

Lemma count_gt_none (v : R) (l : list R) :
  Forall (fun w => w <= v) l -> count_gt v l = O.
Proof.
  unfold count_gt. induction 1 as [| x l Hx Hl IH]; simpl; [reflexivity |].
  now rewrite (Rltb_false v x).
Qed.

Lemma count_eq_none (v : R) (l : list R) : ~ In v l -> count_eq v l = O.
Proof.
  intro H. destruct (count_eq v l) eqn:E; [reflexivity |].
  exfalso. apply H, count_eq_pos. lia.
Qed.

Lemma count_gt_cons (v x : R) (l : list R) :
  count_gt v (x :: l) = ((if Rltb v x then 1 else 0) + count_gt v l)%nat.
Proof. unfold count_gt. simpl. now destruct (Rltb v x). Qed.

Lemma count_eq_cons (v x : R) (l : list R) :
  count_eq v (x :: l) = ((if Reqb x v then 1 else 0) + count_eq v l)%nat.
Proof. unfold count_eq. simpl. now destruct (Reqb x v). Qed.

Lemma count_lt_cons (v x : R) (l : list R) :
  count_lt v (x :: l) = ((if Rltb x v then 1 else 0) + count_lt v l)%nat.
Proof. unfold count_lt. simpl. now destruct (Rltb x v). Qed.

(** In a descending list the copies of [v] fill the positions from
    [count_gt v l] on, and no other. *)
Lemma descending_run (v : R) (l : list R) :
  descending l ->
  forall i, (i < length l)%nat ->
            (nth i l 0 = v <-> (count_gt v l <= i < count_gt v l + count_eq v l)%nat).
Proof.
  induction 1 as [| x l Hl IH Hx]; intros i Hi; simpl in Hi; [lia |].
  rewrite count_gt_cons, count_eq_cons.
  assert (Hle : forall w, In w l -> w <= x) by (now apply Forall_forall).
  destruct (Rlt_dec v x) as [Hvx | Hvx].
  - rewrite (Rltb_true v x), (Reqb_false x v) by lra.
    destruct i as [| i]; simpl.
    + split; [lra | lia].
    + rewrite IH by lia. lia.
  - rewrite (Rltb_false v x) by lra.
    assert (Hg : count_gt v l = O).
    { apply count_gt_none, Forall_forall. intros w Hw. specialize (Hle w Hw). lra. }
    destruct (Req_dec_T x v) as [Hxv | Hxv].
    + rewrite (Reqb_true x v) by exact Hxv.
      destruct i as [| i]; simpl.
      * split; [lia | intros _; exact Hxv].
      * rewrite IH by lia. lia.
    + rewrite (Reqb_false x v) by exact Hxv.
      assert (He : count_eq v l = O).
      { apply count_eq_none. intro Hin. specialize (Hle v Hin). lra. }
      rewrite Hg, He. simpl. split; [| lia].
      destruct i as [| i]; simpl; [intro; contradiction |].
      intro Hn. assert (Hin : In v l) by (rewrite <- Hn; apply nth_In; lia).
      specialize (Hle v Hin). lra.
Qed.

(** *** The dict comprehension *)

(** The last 1-based position of [k] in [l], 0 when [k] is not in [l]. *)
Fixpoint last_pos (k : R) (l : list R) : nat :=
  match l with
  | [] => O
  | x :: rest =>
      match last_pos k rest with
      | S p => S (S p)
      | O => if Reqb x k then 1%nat else O
      end
  end.

Definition comprehension_step (d : list (R * R)) (iv : nat * R) : list (R * R) :=
  let '(i, value) := iv in dict_set value (INR i + 1) d.

Lemma comprehension_get (l : list R) (i0 : nat) (d : list (R * R)) (k : R) :
  dict_get k (fold_left comprehension_step (enumerate_from i0 l) d)
  = match last_pos k l with
    | O => dict_get k d
    | S p => Some (INR (i0 + p) + 1)
    end.
Proof.
  revert i0 d. induction l as [| x l IH]; intros i0 d; simpl; [reflexivity |].
  rewrite IH. destruct (last_pos k l) as [| p].
  - destruct (Reqb x k) eqn:E.
    + apply Reqb_eq in E. subst x. rewrite dict_get_set_same, Nat.add_0_r. reflexivity.
    + apply Reqb_neq in E. apply dict_get_set_other. congruence.
  - now rewrite Nat.add_succ_comm.
Qed.

Lemma last_pos_descending (v : R) (l : list R) :
  descending l ->
  last_pos v l = match count_eq v l with O => O | S _ => last_position v l end.
Proof.
  unfold last_position.
  induction 1 as [| x l Hl IH Hx]; simpl; [reflexivity |].
  rewrite count_gt_cons, count_eq_cons, IH.
  assert (Hle : forall w, In w l -> w <= x) by (now apply Forall_forall).
  destruct (count_eq v l) as [| c] eqn:Ec.
  - assert (Hnin : ~ In v l) by (rewrite count_eq_pos; lia).
    destruct (Req_dec_T x v) as [Hxv | Hxv].
    + rewrite (Reqb_true x v), (Rltb_false v x) by lra. simpl.
      rewrite count_gt_none; [reflexivity |].
      apply Forall_forall. intros w Hw. specialize (Hle w Hw). lra.
    + now rewrite (Reqb_false x v).
  - assert (Hin : In v l) by (rewrite count_eq_pos; lia).
    specialize (Hle v Hin).
    destruct (Req_dec_T x v) as [Hxv | Hxv].
    + rewrite (Reqb_true x v), (Rltb_false v x) by lra. simpl.
      replace (count_gt v l) with O; [simpl; lia |].
      symmetry. apply count_gt_none, Forall_forall.
      intros w Hw. apply Forall_forall with (x := w) in Hx; [lra | exact Hw].
    + rewrite (Reqb_false x v), (Rltb_true v x) by lra. simpl.
      destruct (count_gt v l + S c)%nat eqn:E; lia.
Qed.

Lemma position_ranks_get (values : list R) (v : R) :
  dict_get v (position_ranks values)
  = match count_eq v values with
    | O => None
    | S _ => Some (INR (last_position v values))
    end.
Proof.
  unfold position_ranks, enumerate.
  change (fun d '(i, value) => dict_set value (INR i + 1) d) with comprehension_step.
  rewrite comprehension_get.
  rewrite last_pos_descending by apply sorted_reverse_descending.
  unfold last_position, count_eq, count_gt.
  rewrite !(filter_length_perm _ _ _ (sorted_reverse_perm values)).
  destruct (length (filter (fun w => Reqb w v) values)) as [| c]; [reflexivity |].
  destruct (_ + S c)%nat as [| p] eqn:E; [lia |].
  simpl plus. f_equal. rewrite S_INR. reflexivity.
Qed.

(** *** The counter *)

Definition get0 (k : R) (c : list (R * nat)) : nat :=
  match dict_get k c with Some m => m | None => O end.

Definition counter_step (c : list (R * nat)) (value : R) : list (R * nat) :=
  dict_set value (S (get0 value c)) c.

Lemma counter_fold_get (l : list R) (c : list (R * nat)) (k : R) :
  dict_get k (fold_left counter_step l c)
  = match count_eq k l with
    | O => dict_get k c
    | S _ => Some (count_eq k l + get0 k c)%nat
    end.
Proof.
  revert c. induction l as [| x l IH]; intro c; simpl; [reflexivity |].
  rewrite IH, count_eq_cons.
  destruct (Req_dec_T x k) as [E | E].
  - subst x. rewrite Reqb_refl.
    assert (Hg : dict_get k (counter_step c k) = Some (S (get0 k c)))
      by apply dict_get_set_same.
    unfold get0 at 1. rewrite Hg.
    destruct (count_eq k l); simpl; f_equal; lia.
  - rewrite (Reqb_false x k) by exact E.
    assert (Hg : dict_get k (counter_step c x) = dict_get k c)
      by (apply dict_get_set_other; congruence).
    unfold get0. rewrite Hg. reflexivity.
Qed.

Lemma Counter_get (l : list R) (k : R) :
  dict_get k (Counter l)
  = match count_eq k l with O => None | S _ => Some (count_eq k l) end.
Proof.
  unfold Counter. change (fun c value => dict_set value (S _) c) with counter_step.
  rewrite counter_fold_get. unfold get0. simpl.
  destruct (count_eq k l); [reflexivity | f_equal; lia].
Qed.

Lemma counter_fold_NoDup (l : list R) (c : list (R * nat)) :
  NoDup (map fst c) -> NoDup (map fst (fold_left counter_step l c)).
Proof.
  revert c. induction l as [| x l IH]; intros c H; simpl; [exact H |].
  apply IH, dict_set_NoDup, H.
Qed.

Lemma Counter_NoDup (l : list R) : NoDup (map fst (Counter l)).
Proof. apply (counter_fold_NoDup l []). constructor. Qed.

Lemma Counter_In (l : list R) (k : R) (c : nat) :
  In (k, c) (Counter l) <-> c = count_eq k l /\ (0 < c)%nat.
Proof.
  split.
  - intro H. apply dict_In_get in H; [| apply Counter_NoDup].
    rewrite Counter_get in H. destruct (count_eq k l); [discriminate |].
    inversion H. split; [reflexivity | lia].
  - intros [-> H]. apply dict_get_In. rewrite Counter_get.
    destruct (count_eq k l); [lia | reflexivity].
Qed.

(** *** The loop over tied values *)

Lemma sum_range_desc (c : nat) (r : R) :
  sum (range_desc r c) = INR c * r - INR c * (INR c - 1) / 2.
Proof.
  revert r. induction c as [| c IH]; intro r.
  - simpl. rewrite sum_nil. lra.
  - change (range_desc r (S c)) with (r :: range_desc (r - 1) c).
    rewrite sum_cons, IH, S_INR. lra.
Qed.

Lemma filter_keys_NoDup {V : Type} (f : R * V -> bool) (d : list (R * V)) :
  NoDup (map fst d) -> NoDup (map fst (filter f d)).
Proof.
  induction d as [| e d IH]; simpl; intro H; [constructor |].
  inversion H as [| a l Hn Hd]; subst.
  destruct (f e); simpl; [| now apply IH].
  constructor; [| now apply IH].
  intro Hin. apply Hn. apply in_map_iff in Hin. destruct Hin as [e' [He Hin]].
  apply filter_In in Hin. apply in_map_iff. exists e'. tauto.
Qed.

Lemma for_each_average_ties (items : list (R * nat)) (ranks : list (R * R)) :
  NoDup (map fst items) ->
  (forall k c, In (k, c) items -> c <> O /\ exists r, dict_get k ranks = Some r) ->
  exists final,
    for_each average_ties items ranks = Ok final /\
    (forall k c r, In (k, c) items -> dict_get k ranks = Some r ->
                   dict_get k final = Some (sum (range_desc r c) / INR c)) /\
    (forall k, ~ In k (map fst items) -> dict_get k final = dict_get k ranks).
Proof.
  revert ranks. induction items as [| [v c] items IH]; intros ranks Hnd Hpre.
  - exists ranks. simpl. split; [reflexivity | split; [intros; contradiction | reflexivity]].
  - inversion Hnd as [| a l Hv Hnd']; subst.
    destruct (Hpre v c (or_introl eq_refl)) as [Hc [r Hr]].
    simpl. unfold getitem. rewrite Hr. simpl.
    unfold div. rewrite Reqb_false by (apply not_0_INR; exact Hc). simpl.
    set (ranks' := dict_set v (sum (range_desc r c) / INR c) ranks).
    assert (Hother : forall k, k <> v -> dict_get k ranks' = dict_get k ranks)
      by (intros k Hk; apply dict_get_set_other; exact Hk).
    assert (Hkeys : forall k c', In (k, c') items -> k <> v).
    { intros k c' Hin E. subst k. apply Hv. apply in_map_iff. now exists (v, c'). }
    destruct (IH ranks' Hnd') as [final [Hf [Hin Hout]]].
    { intros k c' Hk. destruct (Hpre k c' (or_intror Hk)) as [Hc' [r' Hr']].
      split; [exact Hc' | exists r'].
      rewrite Hother; [exact Hr' | now apply (Hkeys k c')]. }
    exists final. split; [exact Hf | split].
    + intros k c' r' [E | Hk] Hg.
      * inversion E; subst. rewrite Hout by exact Hv.
        unfold ranks'. rewrite dict_get_set_same. congruence.
      * apply Hin; [exact Hk |]. rewrite Hother; [exact Hg | now apply (Hkeys k c')].
    + intros k Hk. simpl in Hk.
      rewrite Hout by tauto. apply Hother. intro E. apply Hk. now left.
Qed.

(** What [rank] returns: a dict that maps every value of the input, and
    nothing else, to its mean rank. *)
Lemma rank_spec (values : list R) :
  exists d,
    rank values = Ok d /\
    forall v, dict_get v d
              = match count_eq v values with
                | O => None
                | S _ => Some (mean_rank values v)
                end.
Proof.
  unfold rank.
  set (items := filter (fun '(_, count) => Nat.ltb 1 count) (Counter values)).
  assert (Hitems : forall k c, In (k, c) items <->
                               c = count_eq k values /\ (1 < c)%nat).
  { intros k c. unfold items. rewrite filter_In, Counter_In, Nat.ltb_lt. lia. }
  destruct (for_each_average_ties items (position_ranks values))
    as [final [Hf [Hin Hout]]].
  - apply filter_keys_NoDup, Counter_NoDup.
  - intros k c Hk. apply Hitems in Hk. destruct Hk as [-> Hc].
    split; [lia |]. rewrite position_ranks_get.
    destruct (count_eq k values); [lia | eauto].
  - exists final. split; [exact Hf |]. intro v.
    destruct (count_eq v values) as [| c'] eqn:Ec.
    + rewrite Hout.
      * rewrite position_ranks_get, Ec. reflexivity.
      * intro H. apply in_map_iff in H. destruct H as [[k c] [Hk H]].
        simpl in Hk. subst k. apply Hitems in H. lia.
    + destruct c' as [| c'].
      * rewrite Hout.
        -- rewrite position_ranks_get, Ec. f_equal. unfold mean_rank.
           rewrite Ec. simpl. lra.
        -- intro H. apply in_map_iff in H. destruct H as [[k c] [Hk H]].
           simpl in Hk. subst k. apply Hitems in H. lia.
      * rewrite (Hin v (S (S c')) (INR (last_position v values))).
        -- f_equal. rewrite sum_range_desc. unfold mean_rank. rewrite Ec.
           assert (H0 : INR (S (S c')) <> 0) by (apply not_0_INR; lia).
           field. exact H0.
        -- apply Hitems. lia.
        -- rewrite position_ranks_get, Ec. reflexivity.
Qed.

(** *** The sum of all ranks *)

Lemma list_sum_indicator (a : R) (f : R -> nat) (l : list R) :
  list_sum (map (fun w => (if Rltb a w then 1 else 0) + f w)%nat l)
  = (count_gt a l + list_sum (map f l))%nat.
Proof.
  induction l as [| w l IH]; simpl; [reflexivity |].
  rewrite IH, count_gt_cons. lia.
Qed.

(** Counting the pairs [x < w] from either side. *)
Lemma count_gt_lt_sym (l1 l2 : list R) :
  list_sum (map (fun x => count_gt x l2) l1)
  = list_sum (map (fun w => count_lt w l1) l2).
Proof.
  induction l1 as [| a l1 IH]; simpl.
  - induction l2 as [| w l2 IH2]; simpl; [reflexivity | exact IH2].
  - rewrite IH. rewrite <- list_sum_indicator.
    f_equal. apply map_ext. intro w. now rewrite count_lt_cons.
Qed.

Lemma list_sum_const (n : nat) (f : R -> nat) (l : list R) :
  (forall x, f x = n) -> list_sum (map f l) = (length l * n)%nat.
Proof.
  intro H. induction l as [| x l IH]; simpl; [reflexivity | rewrite IH, H; lia].
Qed.

Lemma list_sum_map_add (f g : R -> nat) (l : list R) :
  list_sum (map (fun x => f x + g x)%nat l)
  = (list_sum (map f l) + list_sum (map g l))%nat.
Proof. induction l as [| x l IH]; simpl; [reflexivity | rewrite IH; lia]. Qed.

Lemma twice_sum_mean_rank (l l' : list R) :
  2 * sum (map (mean_rank l) l')
  = 2 * INR (list_sum (map (fun x => count_gt x l) l'))
    + INR (list_sum (map (fun x => count_eq x l) l'))
    + INR (length l').
Proof.
  induction l' as [| x l' IH]; simpl.
  - rewrite sum_nil. lra.
  - rewrite sum_cons, Rmult_plus_distr_l, IH.
    rewrite !plus_INR. unfold mean_rank, last_position. rewrite plus_INR.
    destruct (length l'); [simpl | rewrite S_INR]; lra.
Qed.

(** The mean ranks of all [n] occurrences add up to [n (n + 1) / 2]. *)
Lemma sum_mean_rank (l : list R) :
  sum (map (mean_rank l) l) = INR (length l) * (INR (length l) + 1) / 2.
Proof.
  pose proof (twice_sum_mean_rank l l) as H2.
  pose proof (count_gt_lt_sym l l) as Hsym.
  assert (Htri : (list_sum (map (fun x => count_gt x l) l)
                  + list_sum (map (fun x => count_eq x l) l)
                  + list_sum (map (fun x => count_lt x l) l)
                  = length l * length l)%nat).
  { rewrite <- !list_sum_map_add. apply list_sum_const.
    intro x. apply count_trichotomy. }
  rewrite <- Hsym in Htri.
  apply (f_equal INR) in Htri. rewrite !plus_INR, mult_INR in Htri.
  lra.
Qed.

Lemma mapM_getitem (d : list (R * R)) (f : R -> R) (l : list R) :
  (forall v, In v l -> dict_get v d = Some (f v)) ->
  mapM (fun el => getitem el d) l = Ok (map f l).
Proof.
  induction l as [| x l IH]; intro H; simpl; [reflexivity |].
  unfold getitem at 1. rewrite (H x (or_introl eq_refl)). simpl.
  rewrite IH by (intros v Hv; apply H; now right). reflexivity.
Qed.

(** The ranks handed to [calculate_z] for two samples. *)
Lemma sample_ranks (x1 x2 : list R) :
  exists rank_dict,
    rank (x1 ++ x2) = Ok rank_dict /\
    mapM (fun el => getitem el rank_dict) x1 = Ok (map (mean_rank (x1 ++ x2)) x1) /\
    mapM (fun el => getitem el rank_dict) x2 = Ok (map (mean_rank (x1 ++ x2)) x2).
Proof.
  destruct (rank_spec (x1 ++ x2)) as [d [Hd Hget]].
  exists d. split; [exact Hd |].
  assert (H : forall v, In v (x1 ++ x2) -> dict_get v d = Some (mean_rank (x1 ++ x2) v)).
  { intros v Hv. rewrite Hget. apply count_eq_pos in Hv.
    destruct (count_eq v (x1 ++ x2)); [lia | reflexivity]. }
  split; apply mapM_getitem; intros v Hv; apply H, in_or_app; tauto.
Qed.

(** *** C6 *)

(** C6: for every list of n values, [rank] maps a value that occurs [count]
    times to [p - (count - 1) / 2], the mean of the run [p, p-1, ...,
    p-count+1], where the copies of the value fill exactly the positions
    [p-count+1 .. p] (counted from 1) of the list ordered largest-first; the
    ranks of all n occurrences add up to [n (n + 1) / 2]; and the empty list
    gives the empty dict. *)
Theorem rank_mean_of_run (values : list R) :
  (exists ranks,
      rank values = Ok ranks /\
      (forall v, In v values ->
                 let count := count_eq v values in
                 let p := last_position v values in
                 (forall q, (1 <= q <= length values)%nat ->
                            nth (q - 1) (sorted_reverse Rltb values) 0 = v
                            <-> (p - count < q <= p)%nat) /\
                 (1 <= count <= p)%nat /\
                 sum (range_desc (INR p) count) / INR count
                 = INR p - (INR count - 1) / 2 /\
                 dict_get v ranks = Some (INR p - (INR count - 1) / 2)) /\
      (forall v, ~ In v values -> dict_get v ranks = None) /\
      (exists all_ranks,
          mapM (fun el => getitem el ranks) values = Ok all_ranks /\
          sum all_ranks = INR (length values) * (INR (length values) + 1) / 2)) /\
  rank [] = Ok [].
Proof.
  split; [| reflexivity].
  destruct (rank_spec values) as [d [Hd Hget]].
  exists d. split; [exact Hd |]. split; [| split].
  - intros v Hv count p.
    assert (Hc : (0 < count)%nat) by (now apply count_eq_pos).
    assert (Hp : (count <= p)%nat) by (unfold p, last_position; fold count; lia).
    split; [| split; [lia | split]].
    + intros q Hq.
      pose proof (descending_run v _ (sorted_reverse_descending values) (q - 1)) as Hrun.
      rewrite (Permutation_length (sorted_reverse_perm values)) in Hrun.
      rewrite Hrun by lia.
      unfold p, last_position, count, count_gt, count_eq.
      rewrite !(filter_length_perm _ _ _ (sorted_reverse_perm values)). lia.
    + rewrite sum_range_desc.
      assert (H0 : INR count <> 0) by (apply not_0_INR; lia).
      field. exact H0.
    + rewrite Hget. unfold mean_rank. subst count p.
      destruct (count_eq v values) eqn:E; [lia | reflexivity].
  - intros v Hv. rewrite Hget, count_eq_none by exact Hv. reflexivity.
  - exists (map (mean_rank values) values). split; [| apply sum_mean_rank].
    apply mapM_getitem. intros v Hv. rewrite Hget.
    apply count_eq_pos in Hv. destruct (count_eq v values); [lia | reflexivity].
Qed.

(** [rank([3, 1, 3])]: the two copies of 3 hold positions 1 and 2, mean 1.5. *)
Example rank_try :
  rank [3; 1; 3] = Ok [(3, 1.5); (1, 3)].
Proof.
  unfold rank, position_ranks, Counter, sorted_reverse, sorted, enumerate.
  Reval. unfold average_ties, getitem, div, sum. Reval. Rlist.
Qed.

Lemma rank_mean_of_run_witness :
  In 3 [3; 1; 3] /\
  exists ranks,
    rank [3; 1; 3] = Ok ranks /\
    dict_get 3 ranks
    = Some (INR (last_position 3 [3; 1; 3]) - (INR (count_eq 3 [3; 1; 3]) - 1) / 2).
Proof.
  assert (H : In 3 [3; 1; 3]) by (simpl; tauto).
  split; [exact H |].
  destruct (proj1 (rank_mean_of_run [3; 1; 3])) as [ranks [Hr [Hv _]]].
  exists ranks. split; [exact Hr |].
  exact (proj2 (proj2 (proj2 (Hv 3 H)))).
Defined.

End RankSpec.

(** ** The error function: sign *)

Lemma erf_0 : erf 0 = 0.
Proof. unfold erf. rewrite RiemannInt_P9. lra. Qed.

Lemma gauss_integral_nonneg (a b : R) :
  a <= b -> 0 <= RiemannInt (gauss_integrable a b).
Proof.
  intro Hab.
  rewrite <- (Rmult_0_l (b - a)), <- (RiemannInt_P15 (RiemannInt_P14 a b 0)).
  apply RiemannInt_P19; [exact Hab |].
  intros x _. unfold fct_cte, gauss. left. apply exp_pos.
Qed.

Lemma erf_scale_pos : 0 < 2 / sqrt PI.
Proof. apply Rdiv_lt_0_compat; [lra | apply sqrt_lt_R0, PI_RGT_0]. Qed.

Lemma erf_nonpos (z : R) : z <= 0 -> erf z <= 0.
Proof.
  intro Hz. unfold erf.
  rewrite (RiemannInt_P8 (gauss_integrable 0 z) (gauss_integrable z 0)).
  pose proof (gauss_integral_nonneg z 0 Hz) as H.
  pose proof erf_scale_pos as Hs.
  nra.
Qed.

Lemma erf_nonneg (z : R) : 0 <= z -> 0 <= erf z.
Proof.
  intro Hz. unfold erf.
  pose proof (gauss_integral_nonneg 0 z Hz) as H.
  pose proof erf_scale_pos as Hs.
  nra.
Qed.

(** ** stattests.py: the rank-sum test *)

Module RankSumSpec.
Import Py Stattests PyFacts RankSpec.

(** Take a successful [bind] apart. *)
Ltac inv_bind H :=
  match type of H with
  | bind ?m _ = _ =>
      let E := fresh "E" in
      destruct m eqn:E; simpl in H; [| discriminate H]
  end.

Lemma z_to_p_half (z : R) : z <= 0 -> z_to_p z <= 0.5.
Proof.
  intro Hz. unfold z_to_p.
  assert (Hs : 0 < sqrt 2) by (apply sqrt_lt_R0; lra).
  assert (Hq : z / sqrt 2 <= 0).
  { unfold Rdiv. pose proof (Rinv_0_lt_compat _ Hs). nra. }
  pose proof (erf_nonpos _ Hq). lra.
Qed.

Lemma z_to_p_0 : z_to_p 0 = 0.5.
Proof. unfold z_to_p. unfold Rdiv at 1. rewrite Rmult_0_l, erf_0. lra. Qed.

Lemma min_from_pair (a b : R) : min_from a [b] <= (a + b) / 2.
Proof.
  simpl. destruct (Rltb b a) eqn:E.
  - apply Rltb_lt in E. lra.
  - apply Rltb_ge in E. lra.
Qed.

Lemma std_nonneg (ranks1 ranks2 : list R) (sd : R) :
  std ranks1 ranks2 = Ok sd -> 0 <= sd.
Proof.
  unfold std. intro H.
  inv_bind H. unfold math_sqrt in H.
  destruct (Rltb a 0); simpl in H; [discriminate |].
  destruct (Rltb _ 0); simpl in H; [discriminate |].
  inversion H. apply Rmult_le_pos; apply sqrt_pos.
Qed.

(** Whenever [calculate_z] returns, the assertion held and [z <= 0]. *)
Lemma calculate_z_nonpos (ranks1 ranks2 : list R) (z : R) :
  calculate_z ranks1 ranks2 = Ok z -> z <= 0.
Proof.
  unfold calculate_z, assert. intro H.
  destruct (Reqb _ _) eqn:Ea; simpl in H; [| discriminate].
  apply Reqb_eq in Ea.
  inv_bind H. rename a into sd.
  unfold div in H. destruct (Reqb sd 0) eqn:Es; [discriminate |].
  apply Reqb_neq in Es. inversion H as [Hz]. clear H.
  pose proof (std_nonneg _ _ _ E) as Hsd.
  assert (Hpos : 0 < sd) by lra.
  pose proof (min_from_pair (U1 ranks1 ranks2) (U2 ranks1 ranks2)) as Hmin.
  rewrite Ea in Hmin. subst z.
  set (U := min_from _ _) in *.
  set (mean := INR (length ranks1) * INR (length ranks2) / 2) in *.
  assert (Hnum : U - mean <= 0) by lra.
  change ((U - mean) / sd <= 0). clearbody U mean.
  unfold Rdiv. pose proof (Rinv_0_lt_compat _ Hpos). nra.
Qed.

(** *** The tie term of the standard deviation *)

Definition tie_term (value : nat) : R := (INR value ^ 3 - INR value) / 12.

Lemma sigma_all_counts (cnts : list nat) :
  sum (map tie_term (filter (fun value => Nat.ltb 1 value) cnts))
  = sum (map tie_term cnts).
Proof.
  induction cnts as [| c cnts IH]; simpl; [reflexivity |].
  destruct (Nat.ltb 1 c) eqn:E; simpl; rewrite !sum_cons, ?IH; [reflexivity |].
  apply Nat.ltb_ge in E.
  assert (H : tie_term c = 0).
  { unfold tie_term. destruct c as [| [| c]]; [simpl; lra | simpl; lra | lia]. }
  lra.
Qed.

Lemma list_sum_cons (c : nat) (cnts : list nat) :
  list_sum (c :: cnts) = (c + list_sum cnts)%nat.
Proof. reflexivity. Qed.

Lemma sum_tie_terms (cnts : list nat) :
  sum (map tie_term cnts)
  = (sum (map (fun c => INR c ^ 3) cnts) - INR (list_sum cnts)) / 12.
Proof.
  induction cnts as [| c cnts IH]; cbn [map].
  - rewrite !sum_nil. simpl. lra.
  - rewrite list_sum_cons, !sum_cons, IH, plus_INR. unfold tie_term. lra.
Qed.

Lemma cubes_le (cnts : list nat) :
  sum (map (fun c => INR c ^ 3) cnts) <= INR (list_sum cnts) ^ 3.
Proof.
  induction cnts as [| c cnts IH]; cbn [map].
  - rewrite sum_nil. simpl. lra.
  - rewrite list_sum_cons, sum_cons, plus_INR.
    pose proof (pos_INR c) as Hc. pose proof (pos_INR (list_sum cnts)) as Hs.
    assert (H3 : 0 <= INR c * INR (list_sum cnts)) by (now apply Rmult_le_pos).
    assert (H4 : 0 <= INR c * INR (list_sum cnts) * (INR c + INR (list_sum cnts)))
      by (apply Rmult_le_pos; lra).
    replace ((INR c + INR (list_sum cnts)) ^ 3)
      with (INR c ^ 3 + INR (list_sum cnts) ^ 3
            + 3 * (INR c * INR (list_sum cnts) * (INR c + INR (list_sum cnts))))
      by ring.
    lra.
Qed.

Lemma cubes_lt (c1 c2 : nat) (cnts : list nat) :
  (0 < c1)%nat -> (0 < c2)%nat ->
  sum (map (fun c => INR c ^ 3) (c1 :: c2 :: cnts)) < INR (list_sum (c1 :: c2 :: cnts)) ^ 3.
Proof.
  intros H1 H2.
  pose proof (cubes_le (c2 :: cnts)) as Hle.
  set (rest := c2 :: cnts) in *.
  assert (Hr : 1 <= INR (list_sum rest)).
  { change 1 with (INR 1). apply le_INR. unfold rest. simpl. lia. }
  assert (Hc : 1 <= INR c1) by (change 1 with (INR 1); apply le_INR; lia).
  cbn [map]. fold rest. rewrite list_sum_cons, sum_cons, plus_INR.
  assert (H3 : 1 <= INR c1 * INR (list_sum rest)) by nra.
  assert (H4 : 2 <= INR c1 * INR (list_sum rest) * (INR c1 + INR (list_sum rest)))
    by nra.
  replace ((INR c1 + INR (list_sum rest)) ^ 3)
    with (INR c1 ^ 3 + INR (list_sum rest) ^ 3
          + 3 * (INR c1 * INR (list_sum rest) * (INR c1 + INR (list_sum rest))))
    by ring.
  lra.
Qed.

Lemma counter_step_total (c : list (R * nat)) (k : R) :
  list_sum (map snd (counter_step c k)) = S (list_sum (map snd c)).
Proof.
  unfold counter_step, get0.
  induction c as [| [k' v'] c IH]; simpl; [reflexivity |].
  destruct (Reqb k' k) eqn:E; simpl; [lia |].
  rewrite IH. lia.
Qed.

Lemma counter_fold_total (l : list R) (c : list (R * nat)) :
  list_sum (map snd (fold_left counter_step l c))
  = (length l + list_sum (map snd c))%nat.
Proof.
  revert c. induction l as [| x l IH]; intro c; simpl; [reflexivity |].
  rewrite IH, counter_step_total. lia.
Qed.

Lemma Counter_total (l : list R) : list_sum (map snd (Counter l)) = length l.
Proof.
  unfold Counter. change (fun c value => dict_set value (S _) c) with counter_step.
  rewrite counter_fold_total. simpl. lia.
Qed.

Lemma sigma_term_value (ranks1 ranks2 : list R) :
  sigma_term ranks1 ranks2
  = (sum (map (fun c => INR c ^ 3) (map snd (Counter (ranks1 ++ ranks2))))
     - INR (length ranks1 + length ranks2)) / 12.
Proof.
  unfold sigma_term. fold tie_term.
  rewrite sigma_all_counts, sum_tie_terms, Counter_total, length_app.
  reflexivity.
Qed.

(** The radicand of the right factor of [std]. *)
Definition tie_radicand (ranks1 ranks2 : list R) : R :=
  let n := INR (length ranks1) + INR (length ranks2) in
  (n ^ 3 - n) / 12 - sigma_term ranks1 ranks2.

Lemma tie_radicand_nonneg (ranks1 ranks2 : list R) : 0 <= tie_radicand ranks1 ranks2.
Proof.
  unfold tie_radicand. rewrite sigma_term_value.
  pose proof (cubes_le (map snd (Counter (ranks1 ++ ranks2)))) as H.
  rewrite Counter_total, length_app in H. rewrite plus_INR in *. lra.
Qed.

Lemma two_entries {A : Type} (l : list A) (a b : A) :
  In a l -> In b l -> a <> b -> exists x y l', Permutation l (x :: y :: l') /\ a = x /\ b = y.
Proof.
  intros Ha Hb Hne.
  destruct (in_split _ _ Ha) as [l1 [l2 Hl]].
  assert (Hb' : In b (l1 ++ l2)).
  { subst l. apply in_app_or in Hb. apply in_or_app.
    destruct Hb as [Hb | [Hb | Hb]]; [now left | congruence | now right]. }
  destruct (in_split _ _ Hb') as [l3 [l4 Hl']].
  exists a, b, (l3 ++ l4). split; [| split; reflexivity].
  subst l. apply Permutation_sym, Permutation_cons_app.
  rewrite Hl'. apply Permutation_cons_app, Permutation_refl.
Qed.

Lemma sum_perm (l l' : list R) : Permutation l l' -> sum l = sum l'.
Proof.
  induction 1 as [| x l l' _ IH | x y l | l l' l'' _ IH1 _ IH2].
  - reflexivity.
  - now rewrite !sum_cons, IH.
  - rewrite !sum_cons. lra.
  - congruence.
Qed.

Lemma list_sum_perm (l l' : list nat) : Permutation l l' -> list_sum l = list_sum l'.
Proof.
  induction 1 as [| x l l' _ IH | x y l | l l' l'' _ IH1 _ IH2]; simpl; lia.
Qed.

(** With two different ranks among the observations, the radicand is positive. *)
Lemma tie_radicand_pos (ranks1 ranks2 : list R) (a b : R) :
  In a (ranks1 ++ ranks2) -> In b (ranks1 ++ ranks2) -> a <> b ->
  0 < tie_radicand ranks1 ranks2.
Proof.
  intros Ha Hb Hne.
  set (l := ranks1 ++ ranks2) in *.
  assert (Ha' : In (a, count_eq a l) (Counter l))
    by (apply Counter_In; split; [reflexivity | now apply count_eq_pos]).
  assert (Hb' : In (b, count_eq b l) (Counter l))
    by (apply Counter_In; split; [reflexivity | now apply count_eq_pos]).
  destruct (two_entries (Counter l) _ _ Ha' Hb') as [x [y [rest [Hperm [Hx Hy]]]]];
    [congruence |].
  subst x y.
  assert (Hcnt : Permutation (map snd (Counter l))
                             (count_eq a l :: count_eq b l :: map snd rest))
    by (apply (Permutation_map snd) in Hperm; exact Hperm).
  unfold tie_radicand. rewrite sigma_term_value. fold l.
  pose proof (cubes_lt (count_eq a l) (count_eq b l) (map snd rest)) as Hlt.
  rewrite <- (list_sum_perm _ _ Hcnt), Counter_total in Hlt.
  rewrite <- (sum_perm _ _ (Permutation_map (fun c => INR c ^ 3) Hcnt)) in Hlt.
  assert (H : sum (map (fun c => INR c ^ 3) (map snd (Counter l))) < INR (length l) ^ 3)
    by (apply Hlt; now apply count_eq_pos).
  unfold l in H at 2. rewrite length_app in H. rewrite plus_INR in *. lra.
Qed.

(** *** Different values, different ranks *)

Lemma count_gt_mono (a b : R) (l : list R) :
  a < b -> (count_gt b l + count_eq b l <= count_gt a l)%nat.
Proof.
  intro Hab. induction l as [| e l IH]; [unfold count_gt, count_eq; simpl; lia |].
  rewrite !count_gt_cons, count_eq_cons.
  destruct (Rlt_dec b e) as [H | H].
  - rewrite (Rltb_true b e), (Reqb_false e b), (Rltb_true a e) by lra. lia.
  - rewrite (Rltb_false b e) by lra.
    destruct (Req_dec_T e b) as [E | E].
    + rewrite (Reqb_true e b), (Rltb_true a e) by lra. lia.
    + rewrite (Reqb_false e b) by exact E. destruct (Rltb a e); lia.
Qed.

Lemma mean_rank_lt (a b : R) (l : list R) :
  In a l -> a < b -> mean_rank l b < mean_rank l a.
Proof.
  intros Ha Hab. unfold mean_rank, last_position. rewrite !plus_INR.
  pose proof (le_INR _ _ (count_gt_mono a b l Hab)) as H. rewrite plus_INR in H.
  apply count_eq_pos in Ha. apply lt_INR in Ha. simpl in Ha.
  pose proof (pos_INR (count_eq b l)). lra.
Qed.

Lemma mean_rank_inj (a b : R) (l : list R) :
  In a l -> In b l -> a <> b -> mean_rank l a <> mean_rank l b.
Proof.
  intros Ha Hb Hne.
  destruct (Rtotal_order a b) as [H | [H | H]]; [| contradiction |].
  - pose proof (mean_rank_lt a b l Ha H). lra.
  - pose proof (mean_rank_lt b a l Hb H). lra.
Qed.

(** *** The standard deviation and [z] *)

Lemma std_small (ranks1 ranks2 : list R) :
  (length ranks1 + length ranks2 <= 1)%nat ->
  std ranks1 ranks2 = Raise ZeroDivisionError.
Proof.
  intro H. unfold std, div.
  rewrite Reqb_true; [reflexivity |].
  rewrite <- plus_INR.
  destruct (length ranks1 + length ranks2)%nat as [| [| m]]; simpl; [lra | lra | lia].
Qed.

Lemma std_large (ranks1 ranks2 : list R) :
  (2 <= length ranks1 + length ranks2)%nat ->
  std ranks1 ranks2
  = Ok (sqrt (INR (length ranks1) * INR (length ranks2)
              / ((INR (length ranks1) + INR (length ranks2))
                 * (INR (length ranks1) + INR (length ranks2) - 1)))
        * sqrt (tie_radicand ranks1 ranks2)).
Proof.
  intro H. unfold std, div, math_sqrt.
  pose proof (pos_INR (length ranks1)) as H1.
  pose proof (pos_INR (length ranks2)) as H2.
  assert (Hn : 2 <= INR (length ranks1) + INR (length ranks2)).
  { rewrite <- plus_INR. change 2 with (INR 2). now apply le_INR. }
  set (n1 := INR (length ranks1)) in *. set (n2 := INR (length ranks2)) in *.
  assert (Hd : 0 < (n1 + n2) * (n1 + n2 - 1)) by nra.
  rewrite Reqb_false by lra. simpl.
  rewrite Rltb_false; simpl.
  - rewrite Rltb_false by apply tie_radicand_nonneg. reflexivity.
  - apply Rmult_le_pos; [now apply Rmult_le_pos | left; now apply Rinv_0_lt_compat].
Qed.

Lemma calculate_z_asserted (ranks1 ranks2 : list R) :
  U1 ranks1 ranks2 + U2 ranks1 ranks2 = INR (length ranks1) * INR (length ranks2) ->
  calculate_z ranks1 ranks2
  = (sd <- std ranks1 ranks2 ;;
     div (min_from (U1 ranks1 ranks2) [U2 ranks1 ranks2]
          - INR (length ranks1) * INR (length ranks2) / 2) sd).
Proof.
  intro H. unfold calculate_z. rewrite H, Reqb_refl. reflexivity.
Qed.

(** The ranks of two samples pass the assertion of [calculate_z]. *)
Lemma sample_ranks_U (x1 x2 : list R) :
  let r1 := map (mean_rank (x1 ++ x2)) x1 in
  let r2 := map (mean_rank (x1 ++ x2)) x2 in
  U1 r1 r2 + U2 r1 r2 = INR (length r1) * INR (length r2).
Proof.
  intros r1 r2. unfold U1, U2, r1, r2. rewrite !length_map.
  pose proof (sum_mean_rank (x1 ++ x2)) as Hs.
  rewrite map_app, sum_app, length_app, plus_INR in Hs.
  lra.
Qed.

(** [std] as [mannwhitneyu] reaches it from the two samples. *)
Definition sample_std (x1 x2 : list R) : outcome R :=
  rank_dict <- rank (x1 ++ x2) ;;
  x1_ranks <- mapM (fun el => getitem el rank_dict) x1 ;;
  x2_ranks <- mapM (fun el => getitem el rank_dict) x2 ;;
  std x1_ranks x2_ranks.

Lemma sample_std_eq (x1 x2 : list R) :
  sample_std x1 x2
  = std (map (mean_rank (x1 ++ x2)) x1) (map (mean_rank (x1 ++ x2)) x2).
Proof.
  unfold sample_std. destruct (sample_ranks x1 x2) as [d [Hd [H1 H2]]].
  rewrite Hd. simpl. rewrite H1. simpl. rewrite H2. reflexivity.
Qed.

Lemma mannwhitneyu_eq (x1 x2 : list R) (p : R) :
  let r1 := map (mean_rank (x1 ++ x2)) x1 in
  let r2 := map (mean_rank (x1 ++ x2)) x2 in
  mannwhitneyu x1 x2 p
  = (sd <- sample_std x1 x2 ;;
     z <- div (min_from (U1 r1 r2) [U2 r1 r2]
               - INR (length x1) * INR (length x2) / 2) sd ;;
     Ok (Rltb (z_to_p z) (p / 2), z_to_p z)).
Proof.
  intros r1 r2. unfold mannwhitneyu. rewrite sample_std_eq. fold r1 r2.
  destruct (sample_ranks x1 x2) as [d [Hd [H1 H2]]].
  rewrite Hd. cbn [bind]. rewrite H1. cbn [bind]. rewrite H2. cbn [bind].
  fold r1 r2.
  rewrite (calculate_z_asserted r1 r2 (sample_ranks_U x1 x2)).
  assert (Hl1 : length r1 = length x1) by apply length_map.
  assert (Hl2 : length r2 = length x2) by apply length_map.
  rewrite Hl1, Hl2.
  destruct (std r1 r2); reflexivity.
Qed.

(** Every degenerate input ends in a division by zero. *)
Lemma degenerate_result (x1 x2 : list R) (p : R) :
  x1 = [] \/ x2 = [] \/ (length x1 + length x2 <= 1)%nat \/ sample_std x1 x2 = Ok 0 ->
  mannwhitneyu x1 x2 p = Raise ZeroDivisionError.
Proof.
  intro H. rewrite mannwhitneyu_eq.
  assert (Hstd : sample_std x1 x2 = Raise ZeroDivisionError \/ sample_std x1 x2 = Ok 0).
  { destruct H as [H | [H | [H | H]]]; [| | | now right].
    - destruct (Nat.le_gt_cases (length x1 + length x2) 1) as [Hn | Hn].
      + left. rewrite sample_std_eq. apply std_small. now rewrite !length_map.
      + right. rewrite sample_std_eq, std_large by (rewrite !length_map; lia).
        subst x1. simpl. f_equal.
        rewrite Rmult_0_l. unfold Rdiv. rewrite Rmult_0_l, sqrt_0. lra.
    - destruct (Nat.le_gt_cases (length x1 + length x2) 1) as [Hn | Hn].
      + left. rewrite sample_std_eq. apply std_small. now rewrite !length_map.
      + right. rewrite sample_std_eq, std_large by (rewrite !length_map; lia).
        subst x2. simpl. f_equal.
        rewrite Rmult_0_r. unfold Rdiv. rewrite Rmult_0_l, sqrt_0. lra.
    - left. rewrite sample_std_eq. apply std_small. now rewrite !length_map. }
  destruct Hstd as [-> | ->]; simpl; [reflexivity |].
  unfold div. rewrite Reqb_refl. reflexivity.
Qed.

(** Two copies of a sample with two different values: [z] is 0. *)
Lemma identical_result (x : list R) (p : R) :
  (exists a b, In a x /\ In b x /\ a <> b) -> p <= 1 ->
  let ranks := map (mean_rank (x ++ x)) x in
  U1 ranks ranks = U2 ranks ranks /\
  calculate_z ranks ranks = Ok 0 /\
  mannwhitneyu x x p = Ok (false, 0.5).
Proof.
  intros [a [b [Ha [Hb Hne]]]] Hp ranks.
  assert (HU : U1 ranks ranks = U2 ranks ranks) by reflexivity.
  pose proof (sample_ranks_U x x) as Hsum. fold ranks in Hsum. cbv zeta in Hsum.
  assert (Hlen : (0 < length x)%nat) by (destruct x; [contradiction | simpl; lia]).
  assert (Hrl : length ranks = length x) by apply length_map.
  assert (Hn1 : 1 <= INR (length ranks)).
  { rewrite Hrl. change 1 with (INR 1). apply le_INR. lia. }
  assert (Hstd : exists sd, std ranks ranks = Ok sd /\ 0 < sd).
  { eexists. split; [apply std_large; lia |].
    apply Rmult_lt_0_compat; apply sqrt_lt_R0.
    - set (n := INR (length ranks)) in *.
      apply Rdiv_lt_0_compat; nra.
    - apply (tie_radicand_pos ranks ranks (mean_rank (x ++ x) a) (mean_rank (x ++ x) b)).
      + apply in_or_app. left. now apply in_map.
      + apply in_or_app. left. now apply in_map.
      + apply mean_rank_inj; [apply in_or_app; now left | apply in_or_app; now left | exact Hne]. }
  destruct Hstd as [sd [Hsd Hpos]].
  assert (Hmin : min_from (U1 ranks ranks) [U2 ranks ranks]
                 - INR (length ranks) * INR (length ranks) / 2 = 0).
  { simpl. rewrite <- HU, Rltb_false by lra. rewrite <- HU in Hsum. lra. }
  assert (Hz : calculate_z ranks ranks = Ok 0).
  { rewrite (calculate_z_asserted _ _ Hsum), Hsd. cbn [bind].
    unfold div. rewrite Reqb_false by lra. rewrite Hmin. f_equal.
    unfold Rdiv. apply Rmult_0_l. }
  split; [exact HU |]. split; [exact Hz |].
  unfold mannwhitneyu.
  destruct (sample_ranks x x) as [d [Hd [H1 _]]].
  rewrite Hd. cbn [bind]. rewrite H1. cbn [bind]. fold ranks. rewrite Hz. cbn [bind].
  rewrite z_to_p_0, Rltb_false by lra. reflexivity.
Qed.

(** C5: for every pair of samples (non-empty ones in particular) ranked by
    [rank] over the pooled values, [U1 + U2 = n1 * n2], so that the assertion
    of [calculate_z] passes. *)
Theorem u_statistics_sum (x1 x2 : list R) :
  exists rank_dict ranks1 ranks2,
    rank (x1 ++ x2) = Ok rank_dict /\
    mapM (fun el => getitem el rank_dict) x1 = Ok ranks1 /\
    mapM (fun el => getitem el rank_dict) x2 = Ok ranks2 /\
    length ranks1 = length x1 /\ length ranks2 = length x2 /\
    U1 ranks1 ranks2 + U2 ranks1 ranks2 = INR (length x1) * INR (length x2) /\
    assert (Reqb (U1 ranks1 ranks2 + U2 ranks1 ranks2)
                 (INR (length ranks1) * INR (length ranks2))) = Ok tt.
Proof.
  destruct (sample_ranks x1 x2) as [d [Hd [H1 H2]]].
  exists d, (map (mean_rank (x1 ++ x2)) x1), (map (mean_rank (x1 ++ x2)) x2).
  split; [exact Hd |]. split; [exact H1 |]. split; [exact H2 |].
  rewrite !length_map. split; [reflexivity |]. split; [reflexivity |].
  assert (HU : U1 (map (mean_rank (x1 ++ x2)) x1) (map (mean_rank (x1 ++ x2)) x2)
               + U2 (map (mean_rank (x1 ++ x2)) x1) (map (mean_rank (x1 ++ x2)) x2)
               = INR (length x1) * INR (length x2)).
  { unfold U1, U2. rewrite !length_map.
    pose proof (sum_mean_rank (x1 ++ x2)) as Hs.
    rewrite map_app, sum_app, length_app, plus_INR in Hs.
    lra. }
  split; [exact HU |].
  rewrite HU, Reqb_refl. reflexivity.
Qed.

(** C10: whenever the rank-sum test returns, the p-value it returns is at
    most 0.5: [U = min(U1, U2)] is at most the mean [n1 n2 / 2], so [z <= 0]
    and [z_to_p z <= 0.5]; in particular no returned p-value is near 1. *)
Theorem p_value_at_most_half (x1 x2 : list R) (p : R) (significant : bool) (p_val : R) :
  mannwhitneyu x1 x2 p = Ok (significant, p_val) ->
  p_val <= 0.5 /\ Rabs (p_val - 1) >= 0.5.
Proof.
  unfold mannwhitneyu. intro H.
  inv_bind H. inv_bind H. inv_bind H. inv_bind H.
  inversion H as [[Hs Hp]].
  apply calculate_z_nonpos in E2.
  pose proof (z_to_p_half _ E2) as Hz.
  split; [exact Hz |].
  rewrite Rabs_left by lra. lra.
Qed.


(** *** Identical samples *)

Definition five : list R := [1; 2; 3; 4; 5].

Lemma five_distinct : exists a b, In a five /\ In b five /\ a <> b.
Proof. exists 1, 2. unfold five. simpl. repeat split; [tauto | tauto | lra]. Qed.

(** [rank] on the pooled values of [five] against itself, and the statistics. *)
Example five_ranks :
  rank (five ++ five) = Ok [(5, 1.5); (4, 3.5); (3, 5.5); (2, 7.5); (1, 9.5)].
Proof.
  unfold rank, position_ranks, Counter, sorted_reverse, sorted, enumerate, five.
  Reval. unfold average_ties, getitem, div, sum. Reval. Rlist.
Qed.

Example five_U :
  U1 [9.5; 7.5; 5.5; 3.5; 1.5] [9.5; 7.5; 5.5; 3.5; 1.5] = 12.5 /\
  U2 [9.5; 7.5; 5.5; 3.5; 1.5] [9.5; 7.5; 5.5; 3.5; 1.5] = 12.5.
Proof. unfold U1, U2, sum. simpl. split; lra. Qed.

Lemma constant_sample_std : sample_std [5] [5] = Ok 0.
Proof.
  rewrite sample_std_eq, std_large by (simpl; lia).
  f_equal. apply Rmult_eq_0_compat_l.
  replace (tie_radicand _ _) with 0; [apply sqrt_0 |].
  unfold tie_radicand, sigma_term, mean_rank, last_position, count_gt, count_eq, Counter.
  Reval. unfold sum. simpl. lra.
Qed.

(** C2, as the specification states it, fails twice: for [1, 2, 3, 4, 5]
    against itself the p-value returned is 0.5, at distance 0.5 from 1; and
    for the non-empty sample [5] against itself nothing is returned, the
    standard deviation being 0. *)
Lemma identical_samples_not_near_one :
  ~ (exists significant p_val,
        mannwhitneyu five five 0.05 = Ok (significant, p_val) /\
        Rabs (p_val - 1) < 0.5) /\
  mannwhitneyu [5] [5] 0.05 = Raise ZeroDivisionError.
Proof.
  split.
  - intros [sig [pv [H Hn]]].
    destruct (identical_result five 0.05 five_distinct) as [_ [_ Hr]]; [lra |].
    rewrite Hr in H. inversion H; subst.
    rewrite Rabs_left in Hn by lra. lra.
  - apply degenerate_result. right. right. right. apply constant_sample_std.
Qed.

(** C2, amended: for every sample x that holds at least two different
    values and every threshold [p <= 1], the rank-sum test of x against
    itself has [U1 = U2] and [z = 0] and returns the p-value 0.5 with a
    non-significant result; for x1 = x2 = [1, 2, 3, 4, 5] it returns
    [(False, 0.5)]. *)
Theorem identical_samples (x : list R) (p : R) :
  (exists a b, In a x /\ In b x /\ a <> b) -> p <= 1 ->
  exists rank_dict ranks,
    rank (x ++ x) = Ok rank_dict /\
    mapM (fun el => getitem el rank_dict) x = Ok ranks /\
    U1 ranks ranks = U2 ranks ranks /\
    calculate_z ranks ranks = Ok 0 /\
    mannwhitneyu x x p = Ok (false, 0.5).
Proof.
  intros Hx Hp.
  destruct (sample_ranks x x) as [d [Hd [H1 _]]].
  exists d, (map (mean_rank (x ++ x)) x).
  split; [exact Hd |]. split; [exact H1 |].
  exact (identical_result x p Hx Hp).
Qed.

Lemma identical_samples_witness :
  (exists a b, In a five /\ In b five /\ a <> b) /\ 0.05 <= 1 /\
  exists rank_dict ranks,
    rank (five ++ five) = Ok rank_dict /\
    mapM (fun el => getitem el rank_dict) five = Ok ranks /\
    U1 ranks ranks = U2 ranks ranks /\
    calculate_z ranks ranks = Ok 0 /\
    mannwhitneyu five five 0.05 = Ok (false, 0.5).
Proof.
  assert (H1 : exists a b, In a five /\ In b five /\ a <> b).
  { exists 1, 2. unfold five. simpl. repeat split; [tauto | tauto | lra]. }
  assert (H2 : 0.05 <= 1) by lra.
  split; [exact H1 |]. split; [exact H2 |].
  exact (identical_samples five 0.05 H1 H2).
Defined.

(** *** Degenerate inputs *)

(** C4, as the specification states it, fails: for an empty first sample the
    test does end in the division by zero and raises [ZeroDivisionError], not
    the [ValueError] of a math domain error. *)
Lemma empty_sample_divides_by_zero :
  mannwhitneyu [] [1; 2] 0.05 = Raise ZeroDivisionError /\
  mannwhitneyu [] [1; 2] 0.05 <> Raise ValueError.
Proof.
  assert (H : mannwhitneyu [] [1; 2] 0.05 = Raise ZeroDivisionError)
    by (apply degenerate_result; now left).
  split; [exact H | rewrite H; discriminate].
Qed.

(** C4, amended: whenever a sample is empty, the combined size is at most 1,
    or the standard deviation evaluates to 0, the rank-sum test fails with
    the [ZeroDivisionError] of the division itself: of [n1 n2 / (n (n - 1))]
    when [n <= 1], of [(U - mean) / std] otherwise.  (There is no NaN among
    the real numbers, and no separate domain error.) *)
Theorem degenerate_raises_zero_division (x1 x2 : list R) (p : R) :
  x1 = [] \/ x2 = [] \/ (length x1 + length x2 <= 1)%nat \/ sample_std x1 x2 = Ok 0 ->
  mannwhitneyu x1 x2 p = Raise ZeroDivisionError.
Proof. apply degenerate_result. Qed.

Lemma degenerate_raises_zero_division_witness :
  ([5] = [] \/ [5] = [] \/ (length [5] + length [5] <= 1)%nat
   \/ sample_std [5] [5] = Ok 0) /\
  mannwhitneyu [5] [5] 0.05 = Raise ZeroDivisionError.
Proof.
  assert (H : [5] = [] \/ [5] = [] \/ (length [5] + length [5] <= 1)%nat
              \/ sample_std [5] [5] = Ok 0)
    by (right; right; right; exact constant_sample_std).
  split; [exact H | exact (degenerate_raises_zero_division [5] [5] 0.05 H)].
Defined.

(** *** Witnesses *)

Lemma p_value_at_most_half_witness :
  mannwhitneyu five five 0.05 = Ok (false, 0.5) /\
  0.5 <= 0.5 /\ Rabs (0.5 - 1) >= 0.5.
Proof.
  assert (H : mannwhitneyu five five 0.05 = Ok (false, 0.5)).
  { destruct (identical_result five 0.05 five_distinct) as [_ [_ Hr]]; [lra | exact Hr]. }
  split; [exact H | exact (p_value_at_most_half five five 0.05 false 0.5 H)].
Defined.

End RankSumSpec.


(** * Further properties *)

(** ** fwer_corrections.py: what the corrections guarantee *)

Module FwerMore.
Import Py Fwer PyFacts NpFacts FwerSpec.

(** *** Sorting back by index *)

(** A list ordered by its indices, which are a permutation of an interval, is
    the interval. *)
Lemma ordered_interval (l : list nat) (a n : nat) :
  StronglySorted le l -> Permutation l (seq a n) -> l = seq a n.
Proof.
  revert l a. induction n as [| n IH]; intros l a Hs Hp.
  - apply Permutation_sym, Permutation_nil in Hp. exact Hp.
  - destruct l as [| h t];
      [apply Permutation_nil in Hp; discriminate |].
    inversion Hs as [| h' t' Ht Hh]; subst.
    assert (Hnd : NoDup (h :: t))
      by (apply (Permutation_NoDup (Permutation_sym Hp)), seq_NoDup).
    assert (Hha : h = a).
    { assert (H1 : In h (seq a (S n))) by (apply (Permutation_in _ Hp); now left).
      apply in_seq in H1.
      assert (H2 : In a (h :: t)).
      { apply (Permutation_in _ (Permutation_sym Hp)). apply in_seq. lia. }
      destruct H2 as [H2 | H2]; [exact H2 |].
      rewrite Forall_forall in Hh. specialize (Hh a H2). lia. }
    subst h. simpl. f_equal. apply IH; [exact Ht |].
    simpl in Hp. now apply Permutation_cons_inv in Hp.
Qed.

Lemma sorted_by_index (tups : list (nat * R)) (n : nat) :
  Permutation (map fst tups) (seq 0 n) ->
  map fst (sorted fst Nat.ltb tups) = seq 0 n.
Proof.
  intro Hp. apply ordered_interval.
  - assert (Hs : StronglySorted (fun x y : nat * R => (fst x <= fst y)%nat)
                                (sorted fst Nat.ltb tups)).
    { apply (sorted_ordered fst Nat.ltb le).
      - intros a b H. apply Nat.ltb_lt in H. lia.
      - intros a b H. apply Nat.ltb_ge in H. exact H.
      - intros a b c. apply Nat.le_trans. }
    induction Hs as [| x l Hl IHl Hx]; simpl; constructor; [exact IHl |].
    apply Forall_forall. intros y Hy. apply in_map_iff in Hy.
    destruct Hy as [e [He Hin]]. subst y.
    rewrite Forall_forall in Hx. now apply Hx.
  - apply perm_trans with (map fst tups); [| exact Hp].
    apply Permutation_map, sorted_perm.
Qed.

(** The corrected value of the scan position [m] lands at the original index
    of that position. *)
Lemma holm_corrected_at (p_values : list R) (m : nat) :
  let n := length p_values in
  let s := sorted_pvals_tup p_values in
  let cs := corrected_pvals_tup p_values in
  let corrected_pvals := map snd (sorted fst Nat.ltb cs) in
  (m < n)%nat ->
  length corrected_pvals = n /\
  nth (fst (nth m s d0)) corrected_pvals 0
  = nth (fst (nth m s d0)) p_values 0 * INR (n - m).
Proof.
  intros n s cs corrected_pvals Hm.
  set (L := sorted fst Nat.ltb cs).
  assert (Hcl : length cs = n) by apply corrected_length.
  assert (Hfst : map fst cs = map fst s).
  { apply (nth_ext _ _ O O);
      [rewrite !length_map, Hcl; unfold s; now rewrite sorted_pvals_length |].
    intros j Hj. rewrite length_map, Hcl in Hj.
    change O with (fst d0). rewrite !map_nth. unfold cs.
    now rewrite corrected_nth. }
  assert (HL : map fst L = seq 0 n).
  { apply sorted_by_index. rewrite Hfst. apply sorted_pvals_indices. }
  assert (HLl : length L = n).
  { unfold L. now rewrite sorted_length. }
  split; [unfold corrected_pvals; now rewrite length_map |].
  destruct (sorted_pvals_entry p_values m Hm) as [Hi Hp].
  fold s n in Hi, Hp. set (i := fst (nth m s d0)) in *.
  assert (Hin : In (nth m cs d0) L).
  { apply (Permutation_in _ (Permutation_sym (sorted_perm fst Nat.ltb cs))).
    apply nth_In. now rewrite Hcl. }
  apply (In_nth _ _ d0) in Hin. destruct Hin as [j [Hj Hnj]].
  assert (Hji : j = i).
  { assert (H1 : nth j (map fst L) O = j).
    { rewrite HL, seq_nth; [reflexivity | now rewrite <- HLl]. }
    change O with (fst d0) in H1. rewrite map_nth, Hnj in H1.
    unfold cs in H1. rewrite corrected_nth in H1 by exact Hm. simpl in H1.
    fold s i in H1. now symmetry. }
  subst j. unfold corrected_pvals.
  change 0 with (snd d0) at 1. rewrite map_nth. fold L. rewrite Hnj.
  unfold cs. rewrite corrected_nth by exact Hm. simpl. fold s n.
  now rewrite Hp.
Qed.

(** X1: [_holm_bonferroni] always returns, and the corrected p-values it
    returns are aligned with the input: the entry at the original index of
    scan position [m] is that index's p-value times the multiplier [n - m]. *)
Theorem holm_reprojection (p_values : list R) (alpha : R) :
  let n := length p_values in
  exists significant corrected_pvals,
    _holm_bonferroni p_values alpha = Ok (significant, corrected_pvals) /\
    length significant = n /\ length corrected_pvals = n /\
    (forall i, (i < n)%nat ->
               exists m, (m < n)%nat /\
                         fst (nth m (sorted_pvals_tup p_values) d0) = i /\
                         nth i corrected_pvals 0 = nth i p_values 0 * INR (n - m)).
Proof.
  intro n.
  destruct (holm_spec p_values alpha) as [sig [Hr [Hl _]]].
  exists sig, (map snd (sorted fst Nat.ltb (corrected_pvals_tup p_values))).
  split; [exact Hr |]. split; [exact Hl |].
  split.
  - destruct p_values as [| x l]; [reflexivity |].
    apply (holm_corrected_at (x :: l) O). simpl. lia.
  - intros i Hi.
    destruct (sorted_pvals_position p_values i Hi) as [m [Hm Hmi]].
    exists m. split; [exact Hm |]. split; [exact Hmi |].
    rewrite <- Hmi. now apply holm_corrected_at.
Qed.

(** X2: for a non-negative p-value, the Holm-corrected value lies between the
    p-value itself and its Bonferroni correction [p * n]. *)
Theorem holm_corrected_bounds (p_values : list R) (alpha : R) (i : nat) :
  (i < length p_values)%nat -> 0 <= nth i p_values 0 ->
  exists significant corrected_pvals,
    _holm_bonferroni p_values alpha = Ok (significant, corrected_pvals) /\
    nth i p_values 0 <= nth i corrected_pvals 0
    <= nth i p_values 0 * INR (length p_values).
Proof.
  intros Hi Hp.
  destruct (holm_spec p_values alpha) as [sig [Hr _]].
  exists sig, (map snd (sorted fst Nat.ltb (corrected_pvals_tup p_values))).
  split; [exact Hr |].
  destruct (sorted_pvals_position p_values i Hi) as [m [Hm Hmi]].
  destruct (holm_corrected_at p_values m Hm) as [_ Hc].
  rewrite Hmi in Hc. rewrite Hc.
  assert (H1 : 1 <= INR (length p_values - m))
    by (change 1 with (INR 1); apply le_INR; lia).
  assert (H2 : INR (length p_values - m) <= INR (length p_values))
    by (apply le_INR; lia).
  split; nra.
Qed.

Lemma holm_corrected_bounds_witness :
  (1 < length scenario)%nat /\ 0 <= nth 1 scenario 0 /\
  exists significant corrected_pvals,
    _holm_bonferroni scenario 0.05 = Ok (significant, corrected_pvals) /\
    nth 1 scenario 0 <= nth 1 corrected_pvals 0
    <= nth 1 scenario 0 * INR (length scenario).
Proof.
  assert (H1 : (1 < length scenario)%nat) by (simpl; lia).
  assert (H2 : 0 <= nth 1 scenario 0) by (simpl; lra).
  split; [exact H1 |]. split; [exact H2 |].
  exact (holm_corrected_bounds scenario 0.05 1 H1 H2).
Defined.

(** *** Holm against Bonferroni *)

Lemma bonferroni_flag (p_values : list R) (alpha : R) (i : nat) :
  (i < length p_values)%nat ->
  nth i (Np.lt (Np.mul p_values (INR (length p_values))) alpha) false
  = Rltb (nth i p_values 0 * INR (length p_values)) alpha.
Proof.
  intro Hi. unfold Np.lt, Np.mul.
  rewrite (nth_map_in (fun x => Rltb x alpha) _ i 0 false) by (now rewrite length_map).
  now rewrite (nth_map_in (fun x => x * INR (length p_values)) _ i 0 0).
Qed.

(** X3: whatever Bonferroni marks significant, Holm-Bonferroni marks
    significant too (p-values non-negative, or alpha positive). *)
Theorem holm_dominates_bonferroni (p_values : list R) (alpha : R) :
  Forall (fun x => 0 <= x) p_values \/ 0 < alpha ->
  exists holm_significant holm_corrected bonf_significant bonf_corrected,
    _holm_bonferroni p_values alpha = Ok (holm_significant, holm_corrected) /\
    _bonferroni p_values alpha = Ok (bonf_significant, bonf_corrected) /\
    forall i, (i < length p_values)%nat ->
              nth i bonf_significant false = true ->
              nth i holm_significant false = true.
Proof.
  intro Hdom.
  destruct (holm_spec p_values alpha) as [sig [Hr [Hl [Hk [Hlt [Hge Hsig]]]]]].
  set (n := length p_values) in *.
  set (cs := corrected_pvals_tup p_values) in *.
  set (k := length (collect_trues alpha cs)) in *.
  set (s := sorted_pvals_tup p_values).
  exists sig, (map snd (sorted fst Nat.ltb cs)),
    (Np.lt (Np.mul p_values (INR n)) alpha), (Np.mul p_values (INR n)).
  split; [exact Hr |]. split; [reflexivity |].
  intros i Hi Hb. unfold n in Hb. rewrite bonferroni_flag in Hb by exact Hi.
  apply Rltb_lt in Hb. fold n in Hb.
  destruct (sorted_pvals_position p_values i Hi) as [m [Hm Hmi]]. fold s in Hmi.
  assert (Hci : forall j, (j < n)%nat ->
                  nth j cs d0 = (fst (nth j s d0), snd (nth j s d0) * INR (n - j)))
    by (intros j Hj; apply corrected_nth; exact Hj).
  assert (Hmk : (m < k)%nat).
  { destruct (Nat.lt_ge_cases m k) as [H | H]; [exact H | exfalso].
    assert (Hkn : (k < n)%nat) by lia.
    specialize (Hge Hkn). rewrite (Hci k Hkn) in Hge. simpl in Hge.
    destruct (sorted_pvals_entry p_values m Hm) as [_ Hpm].
    destruct (sorted_pvals_entry p_values k Hkn) as [Hik Hpk].
    fold s in Hpm, Hpk, Hik. rewrite Hmi in Hpm.
    assert (Hle : snd (nth k s d0) <= snd (nth m s d0))
      by (apply sorted_pvals_ordered; fold n; lia).
    assert (H1 : 1 <= INR (n - k)) by (change 1 with (INR 1); apply le_INR; lia).
    assert (H2 : INR (n - k) <= INR n) by (apply le_INR; lia).
    destruct (Rle_dec 0 (snd (nth k s d0))) as [H0 | H0].
    - nra.
    - destruct Hdom as [Hpos | Hpos].
      + apply H0. rewrite Hpk. now apply Forall_nth_nonneg.
      + nra. }
  rewrite <- Hmi.
  replace (fst (nth m s d0)) with (fst (nth m cs d0))
    by (rewrite (Hci m Hm); reflexivity).
  rewrite (Hsig m Hm). now apply Nat.ltb_lt.
Qed.

Lemma holm_dominates_bonferroni_witness :
  (Forall (fun x => 0 <= x) scenario \/ 0 < 0.05) /\
  exists holm_significant holm_corrected bonf_significant bonf_corrected,
    _holm_bonferroni scenario 0.05 = Ok (holm_significant, holm_corrected) /\
    _bonferroni scenario 0.05 = Ok (bonf_significant, bonf_corrected) /\
    forall i, (i < length scenario)%nat ->
              nth i bonf_significant false = true ->
              nth i holm_significant false = true.
Proof.
  assert (H : Forall (fun x => 0 <= x) scenario \/ 0 < 0.05) by (right; lra).
  split; [exact H | exact (holm_dominates_bonferroni scenario 0.05 H)].
Defined.

(** X4: Holm-Bonferroni marks some index significant exactly when Bonferroni
    does: both hinge on the smallest p-value times [n]. *)
Theorem holm_rejects_iff_bonferroni (p_values : list R) (alpha : R) :
  exists holm_significant holm_corrected bonf_significant bonf_corrected,
    _holm_bonferroni p_values alpha = Ok (holm_significant, holm_corrected) /\
    _bonferroni p_values alpha = Ok (bonf_significant, bonf_corrected) /\
    ((exists i, (i < length p_values)%nat /\ nth i holm_significant false = true)
     <-> (exists i, (i < length p_values)%nat /\ nth i bonf_significant false = true)).
Proof.
  destruct (holm_spec p_values alpha) as [sig [Hr [Hl [Hk [Hlt [Hge Hsig]]]]]].
  set (n := length p_values) in *.
  set (cs := corrected_pvals_tup p_values) in *.
  set (k := length (collect_trues alpha cs)) in *.
  set (s := sorted_pvals_tup p_values).
  exists sig, (map snd (sorted fst Nat.ltb cs)),
    (Np.lt (Np.mul p_values (INR n)) alpha), (Np.mul p_values (INR n)).
  split; [exact Hr |]. split; [reflexivity |].
  assert (Hci : forall j, (j < n)%nat ->
                  nth j cs d0 = (fst (nth j s d0), snd (nth j s d0) * INR (n - j)))
    by (intros j Hj; apply corrected_nth; exact Hj).
  split.
  - intros [i [Hi Hs]].
    destruct (sorted_pvals_position p_values i Hi) as [m [Hm Hmi]]. fold s in Hmi.
    assert (Hmk : (m < k)%nat).
    { apply Nat.ltb_lt. rewrite <- (Hsig m Hm), (Hci m Hm). simpl. now rewrite Hmi. }
    assert (H0n : (0 < n)%nat) by lia.
    destruct (sorted_pvals_entry p_values O H0n) as [Hi0 Hp0]. fold s in Hi0, Hp0.
    exists (fst (nth O s d0)). split; [exact Hi0 |].
    unfold n. rewrite bonferroni_flag by exact Hi0. apply Rltb_lt.
    assert (H : snd (nth O cs d0) < alpha) by (apply Hlt; lia).
    rewrite (Hci O H0n) in H. simpl in H. rewrite Nat.sub_0_r in H.
    fold n. now rewrite <- Hp0.
  - intros [i [Hi Hb]]. unfold n in Hb. rewrite bonferroni_flag in Hb by exact Hi.
    apply Rltb_lt in Hb. fold n in Hb.
    destruct (sorted_pvals_position p_values i Hi) as [m [Hm Hmi]]. fold s in Hmi.
    assert (H0n : (0 < n)%nat) by lia.
    destruct (sorted_pvals_entry p_values O H0n) as [Hi0 Hp0]. fold s in Hi0, Hp0.
    destruct (sorted_pvals_entry p_values m Hm) as [_ Hpm]. fold s in Hpm.
    rewrite Hmi in Hpm.
    assert (Hle : snd (nth O s d0) <= snd (nth m s d0))
      by (apply sorted_pvals_ordered; fold n; lia).
    pose proof (pos_INR n) as Hn.
    assert (Hk0 : (0 < k)%nat).
    { destruct k as [| k']; [exfalso | lia].
      specialize (Hge H0n). rewrite (Hci O H0n) in Hge. simpl in Hge.
      rewrite Nat.sub_0_r in Hge. nra. }
    exists (fst (nth O s d0)). split; [exact Hi0 |].
    replace (fst (nth O s d0)) with (fst (nth O cs d0))
      by (rewrite (Hci O H0n); reflexivity).
    rewrite (Hsig O H0n). now apply Nat.ltb_lt.
Qed.

(** *** Sidak *)

(** X7: with [alpha = 0] and at least one p-value, [_sidak] divides by zero:
    [(1 - 0) ** (1/n)] is 1 and the denominator [1 - 1] vanishes. *)
Theorem sidak_alpha_zero (p_values : list R) :
  p_values <> [] ->
  test_corrected p_values 0 "sidak" = Raise ZeroDivisionError.
Proof.
  intro Hne.
  change (test_corrected p_values 0 "sidak") with (_sidak p_values 0).
  unfold _sidak, sidak_correction.
  destruct p_values as [| x l]; [contradiction |].
  set (n := length (x :: l)).
  replace (Nat.eqb n 0) with false by reflexivity. cbn [negb].
  unfold float_pow. rewrite (Rltb_true 0 (1 - 0)) by lra. cbn [bind].
  assert (H1 : Rpower (1 - 0) (1 / INR n) = 1).
  { unfold Rpower. replace (1 - 0) with 1 by lra. now rewrite ln_1, Rmult_0_r, exp_0. }
  rewrite H1. unfold div. rewrite Reqb_true by lra. reflexivity.
Qed.

Lemma sidak_alpha_zero_witness :
  scenario <> [] /\ test_corrected scenario 0 "sidak" = Raise ZeroDivisionError.
Proof.
  assert (H : scenario <> []) by (unfold scenario; discriminate).
  split; [exact H | exact (sidak_alpha_zero scenario H)].
Defined.

(** *** Shapes *)

(** X8: whenever the dispatcher returns, both vectors it returns have the
    length of the input (so the empty input gives two empty vectors); and for
    "holm_bonferroni" and "bonferroni" it returns on every input. *)
Theorem test_corrected_lengths (p_values : list R) (alpha : R) (routine : string) :
  (forall significant corrected_pvals,
      test_corrected p_values alpha routine = Ok (significant, corrected_pvals) ->
      length significant = length p_values /\
      length corrected_pvals = length p_values) /\
  (routine = "holm_bonferroni"%string \/ routine = "bonferroni"%string ->
   exists significant corrected_pvals,
     test_corrected p_values alpha routine = Ok (significant, corrected_pvals)).
Proof.
  assert (Hholm : exists sig, _holm_bonferroni p_values alpha
                              = Ok (sig, map snd (sorted fst Nat.ltb (corrected_pvals_tup p_values)))
                              /\ length sig = length p_values).
  { destruct (holm_spec p_values alpha) as [sig [Hs [Hl _]]]. eauto. }
  split.
  - intros significant corrected_pvals H.
    unfold test_corrected, assert in H.
    destruct (contains routine routines) eqn:Ec; cbn [bind] in H; [| discriminate].
    unfold contains, routines, existsb, fst in Ec.
    unfold routines, getitem in H.
    destruct (String.eqb "holm_bonferroni" routine) eqn:E1; cbn [bind] in H.
    + destruct Hholm as [sig [Hs Hl]]. unfold Np.array in H. rewrite Hs in H.
      inversion H; subst. split; [exact Hl |].
      rewrite length_map, sorted_length. apply corrected_length.
    + destruct (String.eqb "bonferroni" routine) eqn:E2; cbn [bind] in H.
      * unfold _bonferroni, Np.array in H. inversion H; subst.
        unfold Np.lt, Np.mul. now rewrite !length_map.
      * destruct (String.eqb "sidak" routine) eqn:E3; cbn [bind] in H;
          [| discriminate].
        unfold Np.array in H.
        destruct (sidak_returned _ _ _ _ H) as [c [_ [Hs Hc]]]. subst.
        unfold Np.lt, Np.mul. now rewrite !length_map.
  - intros [Hr | Hr]; subst routine.
    + destruct Hholm as [sig [Hs _]]. eexists. eexists. exact Hs.
    + eexists. eexists. reflexivity.
Qed.

Lemma test_corrected_lengths_witness :
  test_corrected scenario 0.05 "sidak"
  = Ok (Np.lt (Np.mul scenario scenario_factor) 0.05, Np.mul scenario scenario_factor) /\
  (length (Np.lt (Np.mul scenario scenario_factor) 0.05) = length scenario /\
   length (Np.mul scenario scenario_factor) = length scenario) /\
  ("bonferroni"%string = "holm_bonferroni"%string \/ "bonferroni"%string = "bonferroni"%string) /\
  exists significant corrected_pvals,
    test_corrected scenario 0.05 "bonferroni" = Ok (significant, corrected_pvals).
Proof.
  assert (H1 : test_corrected scenario 0.05 "sidak"
               = Ok (Np.lt (Np.mul scenario scenario_factor) 0.05,
                     Np.mul scenario scenario_factor)) by exact scenario_sidak.
  assert (H2 : "bonferroni"%string = "holm_bonferroni"%string
               \/ "bonferroni"%string = "bonferroni"%string) by (right; reflexivity).
  split; [exact H1 |].
  split; [exact (proj1 (test_corrected_lengths scenario 0.05 "sidak") _ _ H1) |].
  split; [exact H2 |].
  exact (proj2 (test_corrected_lengths scenario 0.05 "bonferroni") H2).
Defined.

End FwerMore.

(** ** stattests.py: what the ranks guarantee *)

Module RankMore.
Import Py Stattests PyFacts RankSpec RankSumSpec.

Lemma count_eq_perm (v : R) (l l' : list R) :
  Permutation l l' -> count_eq v l = count_eq v l'.
Proof. apply filter_length_perm. Qed.

Lemma count_gt_perm (v : R) (l l' : list R) :
  Permutation l l' -> count_gt v l = count_gt v l'.
Proof. apply filter_length_perm. Qed.

Lemma mean_rank_perm (v : R) (l l' : list R) :
  Permutation l l' -> mean_rank l v = mean_rank l' v.
Proof.
  intro H. unfold mean_rank, last_position.
  now rewrite (count_eq_perm v l l' H), (count_gt_perm v l l' H).
Qed.

Lemma rank_lookup (values : list R) (d : list (R * R)) (v : R) :
  rank values = Ok d -> In v values -> dict_get v d = Some (mean_rank values v).
Proof.
  intros Hd Hv. destruct (rank_spec values) as [d' [Hd' Hget]].
  rewrite Hd in Hd'. inversion Hd'; subst d'.
  rewrite Hget. apply count_eq_pos in Hv.
  destruct (count_eq v values); [lia | reflexivity].
Qed.

(** X9: [rank] does not depend on the order of its input: two lists with the
    same values in any order give dicts with the same rank for every key. *)
Theorem rank_permutation_invariant (values values' : list R) :
  Permutation values values' ->
  exists ranks ranks',
    rank values = Ok ranks /\ rank values' = Ok ranks' /\
    forall v, dict_get v ranks = dict_get v ranks'.
Proof.
  intro Hp.
  destruct (rank_spec values) as [d [Hd Hget]].
  destruct (rank_spec values') as [d' [Hd' Hget']].
  exists d, d'. split; [exact Hd |]. split; [exact Hd' |].
  intro v. rewrite Hget, Hget', (count_eq_perm v _ _ Hp).
  destruct (count_eq v values'); [reflexivity |].
  now rewrite (mean_rank_perm v _ _ Hp).
Qed.

Lemma rank_permutation_invariant_witness :
  Permutation [3; 1; 3] [1; 3; 3] /\
  exists ranks ranks',
    rank [3; 1; 3] = Ok ranks /\ rank [1; 3; 3] = Ok ranks' /\
    forall v, dict_get v ranks = dict_get v ranks'.
Proof.
  assert (H : Permutation [3; 1; 3] [1; 3; 3]) by apply perm_swap.
  split; [exact H | exact (rank_permutation_invariant _ _ H)].
Defined.

(** X10: [rank] reverses the order strictly: of two values of the input, the
    larger one gets the smaller rank. *)
Theorem rank_decreasing (values : list R) (a b : R) :
  In a values -> In b values -> a < b ->
  exists ranks rank_a rank_b,
    rank values = Ok ranks /\
    dict_get a ranks = Some rank_a /\ dict_get b ranks = Some rank_b /\
    rank_b < rank_a.
Proof.
  intros Ha Hb Hab.
  destruct (rank_spec values) as [d [Hd _]].
  exists d, (mean_rank values a), (mean_rank values b).
  split; [exact Hd |].
  split; [now apply rank_lookup |]. split; [now apply rank_lookup |].
  now apply mean_rank_lt.
Qed.

Lemma rank_decreasing_witness :
  In 1 [3; 1; 3] /\ In 3 [3; 1; 3] /\ 1 < 3 /\
  exists ranks rank_a rank_b,
    rank [3; 1; 3] = Ok ranks /\
    dict_get 1 ranks = Some rank_a /\ dict_get 3 ranks = Some rank_b /\
    rank_b < rank_a.
Proof.
  assert (H1 : In 1 [3; 1; 3]) by (simpl; tauto).
  assert (H2 : In 3 [3; 1; 3]) by (simpl; tauto).
  assert (H3 : 1 < 3) by lra.
  split; [exact H1 |]. split; [exact H2 |]. split; [exact H3 |].
  exact (rank_decreasing [3; 1; 3] 1 3 H1 H2 H3).
Defined.

(** X11: every rank lies between 1 and the number of values; the rank of a
    value that occurs once is the whole number [1 + (number of larger
    values)]. *)
Theorem rank_bounds (values : list R) (v : R) :
  In v values ->
  exists ranks r,
    rank values = Ok ranks /\ dict_get v ranks = Some r /\
    1 <= r <= INR (length values) /\
    (count_eq v values = 1%nat -> r = INR (S (count_gt v values))).
Proof.
  intro Hv.
  destruct (rank_spec values) as [d [Hd _]].
  exists d, (mean_rank values v).
  split; [exact Hd |]. split; [now apply rank_lookup |].
  unfold mean_rank, last_position.
  pose proof (count_trichotomy v values) as Ht.
  assert (Hle : (count_gt v values + count_eq v values <= length values)%nat) by lia.
  apply le_INR in Hle. rewrite plus_INR in *.
  apply count_eq_pos in Hv. apply lt_INR in Hv. simpl in Hv.
  pose proof (pos_INR (count_gt v values)).
  assert (H1 : 1 <= INR (count_eq v values)).
  { destruct (count_eq v values); [simpl in Hv; lra |].
    rewrite S_INR. pose proof (pos_INR n). lra. }
  split; [split; lra |].
  intro E. rewrite E, (S_INR (count_gt v values)). simpl. lra.
Qed.

Lemma rank_bounds_witness :
  In 3 [3; 1; 3] /\
  exists ranks r,
    rank [3; 1; 3] = Ok ranks /\ dict_get 3 ranks = Some r /\
    1 <= r <= INR (length [3; 1; 3]).
Proof.
  assert (H : In 3 [3; 1; 3]) by (simpl; tauto).
  split; [exact H |].
  destruct (rank_bounds [3; 1; 3] 3 H) as [ranks [r [H1 [H2 [H3 _]]]]].
  exists ranks, r. split; [exact H1 |]. split; [exact H2 | exact H3].
Defined.

End RankMore.

(** ** stattests.py: what the rank-sum test guarantees *)

Module RankSumMore.
Import Py Stattests PyFacts RankSpec RankSumSpec RankMore.

(** *** The U statistics count pairs *)

Lemma count_eq_app (v : R) (l1 l2 : list R) :
  count_eq v (l1 ++ l2) = (count_eq v l1 + count_eq v l2)%nat.
Proof. unfold count_eq. now rewrite filter_app, length_app. Qed.

Lemma count_gt_app (v : R) (l1 l2 : list R) :
  count_gt v (l1 ++ l2) = (count_gt v l1 + count_gt v l2)%nat.
Proof. unfold count_gt. now rewrite filter_app, length_app. Qed.

(** What an observation [a] adds to the U statistic of its sample against the
    [other] sample: one for every smaller observation there, a half for every
    equal one. *)
Definition pair_score (a : R) (other : list R) : R :=
  INR (count_lt a other) + INR (count_eq a other) / 2.

Lemma mean_rank_app (l other : list R) (a : R) :
  mean_rank (l ++ other) a = mean_rank l a + INR (length other) - pair_score a other.
Proof.
  unfold mean_rank, last_position, pair_score.
  rewrite count_eq_app, count_gt_app, !plus_INR.
  pose proof (count_trichotomy a other) as H.
  apply (f_equal INR) in H. rewrite !plus_INR in H. lra.
Qed.

Lemma sum_map_split (f g : R -> R) (c : R) (l : list R) :
  (forall a, f a = g a + c) ->
  sum (map f l) = sum (map g l) + INR (length l) * c.
Proof.
  intro H. induction l as [| a l IH].
  - simpl. rewrite sum_nil. lra.
  - cbn [map]. rewrite !sum_cons, IH, H.
    change (length (a :: l)) with (S (length l)). rewrite S_INR. lra.
Qed.

Lemma sum_map_minus (f g h : R -> R) (l : list R) :
  (forall a, f a = g a - h a) ->
  sum (map f l) = sum (map g l) - sum (map h l).
Proof.
  intro H. induction l as [| a l IH].
  - simpl. rewrite !sum_nil. lra.
  - cbn [map]. rewrite !sum_cons, IH, H. lra.
Qed.

Lemma sum_pooled_ranks (l other : list R) :
  sum (map (mean_rank (l ++ other)) l)
  = INR (length l) * (INR (length l) + 1) / 2 + INR (length l) * INR (length other)
    - sum (map (fun a => pair_score a other) l).
Proof.
  rewrite (sum_map_minus _ (fun a => mean_rank l a + INR (length other))
                         (fun a => pair_score a other))
    by (intro a; apply mean_rank_app).
  rewrite (sum_map_split _ (mean_rank l) (INR (length other))) by reflexivity.
  rewrite sum_mean_rank. lra.
Qed.

Lemma pair_score_bounds (a : R) (other : list R) :
  0 <= pair_score a other <= INR (length other).
Proof.
  unfold pair_score.
  pose proof (count_trichotomy a other) as H.
  apply (f_equal INR) in H. rewrite !plus_INR in H.
  pose proof (pos_INR (count_lt a other)). pose proof (pos_INR (count_eq a other)).
  pose proof (pos_INR (count_gt a other)). lra.
Qed.

Lemma sum_pair_score_bounds (l other : list R) :
  0 <= sum (map (fun a => pair_score a other) l) <= INR (length l) * INR (length other).
Proof.
  induction l as [| a l IH].
  - simpl. rewrite sum_nil. lra.
  - cbn [map]. rewrite sum_cons.
    change (length (a :: l)) with (S (length l)). rewrite S_INR.
    pose proof (pair_score_bounds a other). lra.
Qed.

(** The two statistics of [calculate_z] on the ranks of two samples. *)
Lemma U_values (x1 x2 : list R) :
  let r1 := map (mean_rank (x1 ++ x2)) x1 in
  let r2 := map (mean_rank (x1 ++ x2)) x2 in
  U1 r1 r2 = sum (map (fun a => pair_score a x2) x1) /\
  U2 r1 r2 = sum (map (fun b => pair_score b x1) x2).
Proof.
  intros r1 r2. unfold U1, U2, r1, r2. rewrite !length_map.
  rewrite sum_pooled_ranks.
  rewrite (map_ext (mean_rank (x1 ++ x2)) (mean_rank (x2 ++ x1)))
    by (intro a; apply mean_rank_perm, Permutation_app_comm).
  rewrite sum_pooled_ranks. split; lra.
Qed.

(** X12: on the ranks of two samples, [U1] counts the pairs in which the
    observation of the first sample is the larger one, ties for a half, and
    [U2] the pairs in which that of the second sample is; both lie between 0
    and [n1 n2]. *)
Theorem U_counts_pairs (x1 x2 : list R) :
  exists rank_dict ranks1 ranks2,
    rank (x1 ++ x2) = Ok rank_dict /\
    mapM (fun el => getitem el rank_dict) x1 = Ok ranks1 /\
    mapM (fun el => getitem el rank_dict) x2 = Ok ranks2 /\
    U1 ranks1 ranks2 = sum (map (fun a => pair_score a x2) x1) /\
    U2 ranks1 ranks2 = sum (map (fun b => pair_score b x1) x2) /\
    0 <= U1 ranks1 ranks2 <= INR (length x1) * INR (length x2) /\
    0 <= U2 ranks1 ranks2 <= INR (length x1) * INR (length x2).
Proof.
  destruct (sample_ranks x1 x2) as [d [Hd [H1 H2]]].
  exists d, (map (mean_rank (x1 ++ x2)) x1), (map (mean_rank (x1 ++ x2)) x2).
  split; [exact Hd |]. split; [exact H1 |]. split; [exact H2 |].
  destruct (U_values x1 x2) as [HU1 HU2].
  split; [exact HU1 |]. split; [exact HU2 |].
  rewrite HU1, HU2.
  pose proof (sum_pair_score_bounds x1 x2). pose proof (sum_pair_score_bounds x2 x1).
  split; lra.
Qed.

Lemma count_lt_none (v : R) (l : list R) :
  Forall (fun w => v <= w) l -> count_lt v l = O.
Proof.
  unfold count_lt. induction 1 as [| x l Hx Hl IH]; simpl; [reflexivity |].
  now rewrite (Rltb_false x v).
Qed.

Lemma sum_map_zero (f : R -> R) (l : list R) :
  (forall a, In a l -> f a = 0) -> sum (map f l) = 0.
Proof.
  induction l as [| a l IH]; intro H; [reflexivity |].
  cbn [map]. rewrite sum_cons, (H a) by (now left).
  rewrite IH; [lra |]. intros b Hb. apply H. now right.
Qed.

(** X13: when every observation of the first sample is below every
    observation of the second, [U1] is 0 and [U2] is [n1 n2], the extreme
    values. *)
Theorem separated_samples (x1 x2 : list R) :
  (forall a b, In a x1 -> In b x2 -> a < b) ->
  exists rank_dict ranks1 ranks2,
    rank (x1 ++ x2) = Ok rank_dict /\
    mapM (fun el => getitem el rank_dict) x1 = Ok ranks1 /\
    mapM (fun el => getitem el rank_dict) x2 = Ok ranks2 /\
    U1 ranks1 ranks2 = 0 /\
    U2 ranks1 ranks2 = INR (length x1) * INR (length x2).
Proof.
  intro Hsep.
  destruct (sample_ranks x1 x2) as [d [Hd [H1 H2]]].
  exists d, (map (mean_rank (x1 ++ x2)) x1), (map (mean_rank (x1 ++ x2)) x2).
  split; [exact Hd |]. split; [exact H1 |]. split; [exact H2 |].
  destruct (U_values x1 x2) as [HU1 _].
  pose proof (sample_ranks_U x1 x2) as Hsum. cbv zeta in Hsum.
  rewrite !length_map in Hsum.
  assert (H0 : sum (map (fun a => pair_score a x2) x1) = 0).
  { apply sum_map_zero. intros a Ha. unfold pair_score.
    rewrite count_lt_none, count_eq_none; [simpl; lra | |].
    - intro Hin. specialize (Hsep a a Ha Hin). lra.
    - apply Forall_forall. intros b Hb. specialize (Hsep a b Ha Hb). lra. }
  rewrite HU1, H0 in *. split; [reflexivity | lra].
Qed.

Lemma separated_samples_witness :
  (forall a b, In a [1; 2; 3] -> In b [10; 11; 12] -> a < b) /\
  exists rank_dict ranks1 ranks2,
    rank ([1; 2; 3] ++ [10; 11; 12]) = Ok rank_dict /\
    mapM (fun el => getitem el rank_dict) [1; 2; 3] = Ok ranks1 /\
    mapM (fun el => getitem el rank_dict) [10; 11; 12] = Ok ranks2 /\
    U1 ranks1 ranks2 = 0 /\
    U2 ranks1 ranks2 = INR (length [1; 2; 3]) * INR (length [10; 11; 12]).
Proof.
  assert (H : forall a b, In a [1; 2; 3] -> In b [10; 11; 12] -> a < b).
  { intros a b Ha Hb. simpl in Ha, Hb.
    destruct Ha as [Ha | [Ha | [Ha | []]]]; destruct Hb as [Hb | [Hb | [Hb | []]]];
      subst; lra. }
  split; [exact H | exact (separated_samples [1; 2; 3] [10; 11; 12] H)].
Defined.

(** *** Which inputs the test accepts *)

Lemma mannwhitneyu_ranks (x1 x2 : list R) (p : R) :
  mannwhitneyu x1 x2 p
  = (z <- calculate_z (map (mean_rank (x1 ++ x2)) x1) (map (mean_rank (x1 ++ x2)) x2) ;;
     Ok (Rltb (z_to_p z) (p / 2), z_to_p z)).
Proof.
  unfold mannwhitneyu. destruct (sample_ranks x1 x2) as [d [Hd [H1 H2]]].
  rewrite Hd. cbn [bind]. rewrite H1. cbn [bind]. rewrite H2. reflexivity.
Qed.

Lemma counter_fold_constant (r : R) (l : list R) (c : nat) :
  (forall x, In x l -> x = r) ->
  fold_left counter_step l [(r, c)] = [(r, (c + length l)%nat)].
Proof.
  revert c. induction l as [| x l IH]; intros c H; simpl.
  - now rewrite Nat.add_0_r.
  - assert (Hx : x = r) by (apply H; now left). subst x.
    unfold counter_step at 2, get0. simpl. rewrite Reqb_refl.
    rewrite IH by (intros y Hy; apply H; now right).
    now rewrite Nat.add_succ_comm.
Qed.

Lemma Counter_constant (r : R) (l : list R) :
  l <> [] -> (forall x, In x l -> x = r) -> Counter l = [(r, length l)].
Proof.
  intros Hne H. destruct l as [| x l]; [contradiction |].
  assert (Hx : x = r) by (apply H; now left). subst x.
  unfold Counter. change (fun c value => dict_set value (S _) c) with counter_step.
  simpl. unfold counter_step at 2, get0. simpl.
  rewrite counter_fold_constant by (intros y Hy; apply H; now right).
  reflexivity.
Qed.

Lemma tie_radicand_constant (ranks1 ranks2 : list R) (r : R) :
  ranks1 ++ ranks2 <> [] -> (forall x, In x (ranks1 ++ ranks2) -> x = r) ->
  tie_radicand ranks1 ranks2 = 0.
Proof.
  intros Hne H. unfold tie_radicand. rewrite sigma_term_value.
  rewrite (Counter_constant r _ Hne H). cbn [map]. rewrite sum_cons, sum_nil.
  cbn [snd]. rewrite length_app, !plus_INR. lra.
Qed.

(** With both samples non-empty and two different pooled values, [std] is
    positive. *)
Lemma sample_std_positive (x1 x2 : list R) :
  x1 <> [] -> x2 <> [] ->
  (exists a b, In a (x1 ++ x2) /\ In b (x1 ++ x2) /\ a <> b) ->
  exists sd, sample_std x1 x2 = Ok sd /\ 0 < sd.
Proof.
  intros H1 H2 [a [b [Ha [Hb Hne]]]].
  set (r1 := map (mean_rank (x1 ++ x2)) x1).
  set (r2 := map (mean_rank (x1 ++ x2)) x2).
  assert (Hl1 : (0 < length r1)%nat)
    by (unfold r1; rewrite length_map; destruct x1; [contradiction | simpl; lia]).
  assert (Hl2 : (0 < length r2)%nat)
    by (unfold r2; rewrite length_map; destruct x2; [contradiction | simpl; lia]).
  rewrite sample_std_eq. fold r1 r2.
  eexists. split; [apply std_large; lia |].
  apply (le_INR 1) in Hl1. apply (le_INR 1) in Hl2. simpl in Hl1, Hl2.
  apply Rmult_lt_0_compat; apply sqrt_lt_R0.
  - apply Rdiv_lt_0_compat; nra.
  - apply (tie_radicand_pos r1 r2 (mean_rank (x1 ++ x2) a) (mean_rank (x1 ++ x2) b)).
    + unfold r1, r2. rewrite <- map_app. now apply in_map.
    + unfold r1, r2. rewrite <- map_app. now apply in_map.
    + now apply mean_rank_inj.
Qed.

(** With all pooled values equal, [std] is 0. *)
Lemma sample_std_constant (x1 x2 : list R) :
  (2 <= length x1 + length x2)%nat ->
  (forall a b, In a (x1 ++ x2) -> In b (x1 ++ x2) -> a = b) ->
  sample_std x1 x2 = Ok 0.
Proof.
  intros Hn Hall.
  rewrite sample_std_eq, std_large by (now rewrite !length_map).
  f_equal. apply Rmult_eq_0_compat_l.
  assert (Hne : x1 ++ x2 <> []).
  { intro E. apply (f_equal (@length R)) in E. rewrite length_app in E. simpl in E. lia. }
  destruct (x1 ++ x2) as [| a0 pool] eqn:Ep; [contradiction |].
  rewrite (tie_radicand_constant _ _ (mean_rank (a0 :: pool) a0)); [apply sqrt_0 | |].
  - rewrite <- map_app, Ep. discriminate.
  - intros x Hx. rewrite <- map_app, Ep in Hx. apply in_map_iff in Hx.
    destruct Hx as [v [Hv Hin]]. subst x. f_equal.
    apply Hall; [exact Hin | now left].
Qed.

(** X14: [mannwhitneyu] returns a result exactly when both samples are
    non-empty and the pooled observations are not all equal; on every other
    input it raises [ZeroDivisionError], and it raises nothing else. *)
Theorem mannwhitneyu_outcome (x1 x2 : list R) (p : R) :
  (x1 <> [] /\ x2 <> [] /\
   (exists a b, In a (x1 ++ x2) /\ In b (x1 ++ x2) /\ a <> b) ->
   exists significant p_val, mannwhitneyu x1 x2 p = Ok (significant, p_val)) /\
  (x1 = [] \/ x2 = [] \/
   (forall a b, In a (x1 ++ x2) -> In b (x1 ++ x2) -> a = b) ->
   mannwhitneyu x1 x2 p = Raise ZeroDivisionError).
Proof.
  split.
  - intros [H1 [H2 Hd]].
    destruct (sample_std_positive x1 x2 H1 H2 Hd) as [sd [Hsd Hpos]].
    rewrite mannwhitneyu_eq, Hsd. cbn [bind].
    unfold div. rewrite Reqb_false by lra. cbn [bind]. eauto.
  - intros [H | [H | H]]; apply degenerate_result; [now left | right; now left |].
    destruct (Nat.le_gt_cases (length x1 + length x2) 1) as [Hn | Hn].
    + right. right. now left.
    + right. right. right. apply sample_std_constant; [lia | exact H].
Qed.

Lemma mannwhitneyu_outcome_witness :
  ([1; 2; 3] <> [] /\ [10; 11; 12] <> [] /\
   (exists a b, In a ([1; 2; 3] ++ [10; 11; 12]) /\
                In b ([1; 2; 3] ++ [10; 11; 12]) /\ a <> b)) /\
  (exists significant p_val,
      mannwhitneyu [1; 2; 3] [10; 11; 12] 0.05 = Ok (significant, p_val)) /\
  (forall a b, In a ([5] ++ [5]) -> In b ([5] ++ [5]) -> a = b) /\
  mannwhitneyu [5] [5] 0.05 = Raise ZeroDivisionError.
Proof.
  assert (H1 : [1; 2; 3] <> [] /\ [10; 11; 12] <> [] /\
               (exists a b, In a ([1; 2; 3] ++ [10; 11; 12]) /\
                            In b ([1; 2; 3] ++ [10; 11; 12]) /\ a <> b)).
  { split; [discriminate |]. split; [discriminate |].
    exists 1, 2. simpl. repeat split; [tauto | tauto | lra]. }
  assert (H2 : forall a b, In a ([5] ++ [5]) -> In b ([5] ++ [5]) -> a = b).
  { intros a b Ha Hb. simpl in Ha, Hb.
    destruct Ha as [Ha | [Ha | []]]; destruct Hb as [Hb | [Hb | []]]; congruence. }
  split; [exact H1 |].
  split; [exact (proj1 (mannwhitneyu_outcome [1; 2; 3] [10; 11; 12] 0.05) H1) |].
  split; [exact H2 |].
  exact (proj2 (mannwhitneyu_outcome [5] [5] 0.05) (or_intror (or_intror H2))).
Defined.

(** *** What the result does not depend on *)

Lemma Counter_perm (l l' : list R) :
  Permutation l l' -> Permutation (Counter l) (Counter l').
Proof.
  intro H. apply NoDup_Permutation.
  - apply (NoDup_map_inv fst), Counter_NoDup.
  - apply (NoDup_map_inv fst), Counter_NoDup.
  - intros [k c]. rewrite !Counter_In, (count_eq_perm k l l' H). reflexivity.
Qed.

Lemma sigma_term_perm (r1 r2 r1' r2' : list R) :
  Permutation (r1 ++ r2) (r1' ++ r2') -> sigma_term r1 r2 = sigma_term r1' r2'.
Proof.
  intro H. rewrite !sigma_term_value.
  rewrite (sum_perm _ _ (Permutation_map (fun c => INR c ^ 3)
                           (Permutation_map snd (Counter_perm _ _ H)))).
  apply Permutation_length in H. rewrite !length_app in H. now rewrite H.
Qed.

(** [calculate_z] reads its arguments through their lengths, their sums and
    the tie term only. *)
Lemma calculate_z_ext (r1 r2 r1' r2' : list R) :
  length r1 = length r1' -> length r2 = length r2' ->
  sum r1 = sum r1' -> sum r2 = sum r2' ->
  sigma_term r1 r2 = sigma_term r1' r2' ->
  calculate_z r1 r2 = calculate_z r1' r2'.
Proof.
  intros Hl1 Hl2 Hs1 Hs2 Hsig.
  unfold calculate_z, std, U1, U2. now rewrite Hl1, Hl2, Hs1, Hs2, Hsig.
Qed.

Lemma min_from_comm (a b : R) : min_from a [b] = min_from b [a].
Proof.
  simpl. destruct (Rltb b a) eqn:E1; destruct (Rltb a b) eqn:E2;
    try reflexivity.
  - apply Rltb_lt in E1. apply Rltb_lt in E2. lra.
  - apply Rltb_ge in E1. apply Rltb_ge in E2. lra.
Qed.

Lemma calculate_z_swap (r1 r2 : list R) : calculate_z r1 r2 = calculate_z r2 r1.
Proof.
  assert (HU1 : U1 r2 r1 = U2 r1 r2) by (unfold U1, U2; lra).
  assert (HU2 : U2 r2 r1 = U1 r1 r2) by (unfold U1, U2; lra).
  assert (Hsig : sigma_term r2 r1 = sigma_term r1 r2)
    by (apply sigma_term_perm, Permutation_app_comm).
  assert (Hstd : std r2 r1 = std r1 r2).
  { unfold std. rewrite Hsig.
    rewrite (Rmult_comm (INR (length r2)) (INR (length r1))).
    now rewrite (Rplus_comm (INR (length r2)) (INR (length r1))). }
  unfold calculate_z. rewrite HU1, HU2, Hstd.
  rewrite (Rplus_comm (U2 r1 r2) (U1 r1 r2)).
  rewrite (Rmult_comm (INR (length r2)) (INR (length r1))).
  now rewrite (min_from_comm (U2 r1 r2) (U1 r1 r2)).
Qed.

(** X15: the test does not depend on which sample comes first. *)
Theorem mannwhitneyu_symmetric (x1 x2 : list R) (p : R) :
  mannwhitneyu x1 x2 p = mannwhitneyu x2 x1 p.
Proof.
  rewrite !mannwhitneyu_ranks.
  assert (E : forall l, map (mean_rank (x2 ++ x1)) l = map (mean_rank (x1 ++ x2)) l)
    by (intro l; apply map_ext; intro a; apply mean_rank_perm, Permutation_app_comm).
  rewrite !E. now rewrite calculate_z_swap.
Qed.

(** X16: the test does not depend on the order of the observations within
    each sample. *)
Theorem mannwhitneyu_permutation_invariant (x1 x2 x1' x2' : list R) (p : R) :
  Permutation x1 x1' -> Permutation x2 x2' ->
  mannwhitneyu x1 x2 p = mannwhitneyu x1' x2' p.
Proof.
  intros H1 H2. rewrite !mannwhitneyu_ranks.
  assert (Hpool : Permutation (x1 ++ x2) (x1' ++ x2')) by (now apply Permutation_app).
  assert (E : forall l, map (mean_rank (x1' ++ x2')) l = map (mean_rank (x1 ++ x2)) l)
    by (intro l; apply map_ext; intro a; symmetry; now apply mean_rank_perm).
  rewrite !E.
  set (f := mean_rank (x1 ++ x2)).
  assert (P1 : Permutation (map f x1) (map f x1')) by (now apply Permutation_map).
  assert (P2 : Permutation (map f x2) (map f x2')) by (now apply Permutation_map).
  rewrite (calculate_z_ext (map f x1) (map f x2) (map f x1') (map f x2')).
  - reflexivity.
  - now apply Permutation_length.
  - now apply Permutation_length.
  - now apply sum_perm.
  - now apply sum_perm.
  - apply sigma_term_perm. now apply Permutation_app.
Qed.

Lemma mannwhitneyu_permutation_invariant_witness :
  Permutation [1; 2; 3] [3; 1; 2] /\ Permutation [10; 11; 12] [11; 10; 12] /\
  mannwhitneyu [1; 2; 3] [10; 11; 12] 0.05 = mannwhitneyu [3; 1; 2] [11; 10; 12] 0.05.
Proof.
  assert (H1 : Permutation [1; 2; 3] [3; 1; 2]).
  { apply Permutation_sym. apply (Permutation_cons_app [1; 2] []). apply Permutation_refl. }
  assert (H2 : Permutation [10; 11; 12] [11; 10; 12]) by apply perm_swap.
  split; [exact H1 |]. split; [exact H2 |].
  exact (mannwhitneyu_permutation_invariant _ _ _ _ 0.05 H1 H2).
Defined.

Lemma count_eq_map (f : R -> R) (v : R) (l : list R) :
  (forall a b, a < b -> f a < f b) ->
  count_eq (f v) (map f l) = count_eq v l.
Proof.
  intro Hf. induction l as [| x l IH]; [reflexivity |].
  cbn [map]. rewrite !count_eq_cons, IH.
  destruct (Rtotal_order x v) as [H | [H | H]].
  - pose proof (Hf _ _ H). now rewrite !Reqb_false by lra.
  - subst x. now rewrite !Reqb_refl.
  - pose proof (Hf _ _ H). now rewrite !Reqb_false by lra.
Qed.

Lemma count_gt_map (f : R -> R) (v : R) (l : list R) :
  (forall a b, a < b -> f a < f b) ->
  count_gt (f v) (map f l) = count_gt v l.
Proof.
  intro Hf. induction l as [| x l IH]; [reflexivity |].
  cbn [map]. rewrite !count_gt_cons, IH.
  destruct (Rtotal_order x v) as [H | [H | H]].
  - pose proof (Hf _ _ H). now rewrite !Rltb_false by lra.
  - subst x. now rewrite !Rltb_false by lra.
  - pose proof (Hf _ _ H). now rewrite !Rltb_true by lra.
Qed.

Lemma mean_rank_map (f : R -> R) (v : R) (l : list R) :
  (forall a b, a < b -> f a < f b) ->
  mean_rank (map f l) (f v) = mean_rank l v.
Proof.
  intro Hf. unfold mean_rank, last_position.
  now rewrite count_eq_map, count_gt_map.
Qed.

(** X17: the test sees the observations through their order only: mapping
    all of them through a strictly increasing function (a shift, a positive
    scaling, a change of unit) leaves the result as it is. *)
Theorem mannwhitneyu_order_only (f : R -> R) (x1 x2 : list R) (p : R) :
  (forall a b, a < b -> f a < f b) ->
  mannwhitneyu (map f x1) (map f x2) p = mannwhitneyu x1 x2 p.
Proof.
  intro Hf. rewrite !mannwhitneyu_ranks.
  rewrite <- map_app, !map_map.
  assert (E : forall l, map (fun x => mean_rank (map f (x1 ++ x2)) (f x)) l
                        = map (mean_rank (x1 ++ x2)) l)
    by (intro l; apply map_ext; intro a; now apply mean_rank_map).
  now rewrite !E.
Qed.

Lemma mannwhitneyu_order_only_witness :
  (forall a b, a < b -> 2 * a + 1 < 2 * b + 1) /\
  mannwhitneyu (map (fun x => 2 * x + 1) [1; 2; 3]) (map (fun x => 2 * x + 1) [10; 11; 12]) 0.05
  = mannwhitneyu [1; 2; 3] [10; 11; 12] 0.05.
Proof.
  assert (H : forall a b, a < b -> 2 * a + 1 < 2 * b + 1) by (intros a b Hab; lra).
  split; [exact H |].
  exact (mannwhitneyu_order_only (fun x => 2 * x + 1) [1; 2; 3] [10; 11; 12] 0.05 H).
Defined.

(** *** The assertion and the normal approximation *)

(** A rank as [rank] produces it for [n] pooled values: a whole number or a
    whole number and a half, between 1 and [n]. *)
Definition half_integer (r : R) : Prop := exists k : Z, r = IZR k / 2.

Definition rank_like (n r : R) : Prop := half_integer r /\ 1 <= r <= n.

(** X18: on two lists of ranks (half-integers between 1 and [n], [n] the
    number of ranks), [calculate_z] fails its assertion exactly when the
    ranks do not add up to [n (n + 1) / 2]; when they do, it returns or
    raises [ZeroDivisionError], and nothing else. *)
Theorem calculate_z_assertion (ranks1 ranks2 : list R) :
  let n := INR (length ranks1) + INR (length ranks2) in
  Forall (rank_like n) (ranks1 ++ ranks2) ->
  (sum ranks1 + sum ranks2 <> n * (n + 1) / 2 ->
   calculate_z ranks1 ranks2 = Raise AssertionError) /\
  (sum ranks1 + sum ranks2 = n * (n + 1) / 2 ->
   calculate_z ranks1 ranks2 = Raise ZeroDivisionError \/
   exists z, calculate_z ranks1 ranks2 = Ok z).
Proof.
  intros n _. split; intro H.
  - unfold calculate_z. rewrite Reqb_false; [reflexivity |].
    intro E. apply H. unfold U1, U2 in E. unfold n. lra.
  - assert (HU : U1 ranks1 ranks2 + U2 ranks1 ranks2
                 = INR (length ranks1) * INR (length ranks2))
      by (unfold U1, U2; unfold n in H; lra).
    rewrite (calculate_z_asserted _ _ HU).
    destruct (Nat.le_gt_cases (length ranks1 + length ranks2) 1) as [Hn | Hn].
    + left. now rewrite std_small.
    + rewrite std_large by lia. cbn [bind]. unfold div.
      destruct (Reqb _ 0); [now left | right; eauto].
Qed.

Lemma rank_like_whole (n : R) (k : Z) :
  1 <= IZR k <= n -> rank_like n (IZR k).
Proof.
  intro H. split; [| exact H].
  exists (2 * k)%Z. rewrite mult_IZR. lra.
Qed.

Lemma calculate_z_assertion_witness :
  (Forall (rank_like (INR 2 + INR 1)) ([1; 1] ++ [1]) /\
   sum [1; 1] + sum [1] <> (INR 2 + INR 1) * (INR 2 + INR 1 + 1) / 2 /\
   calculate_z [1; 1] [1] = Raise AssertionError) /\
  (Forall (rank_like (INR 2 + INR 1)) ([1; 2] ++ [3]) /\
   sum [1; 2] + sum [3] = (INR 2 + INR 1) * (INR 2 + INR 1 + 1) / 2 /\
   (calculate_z [1; 2] [3] = Raise ZeroDivisionError \/
    exists z, calculate_z [1; 2] [3] = Ok z)).
Proof.
  assert (F1 : Forall (rank_like (INR 2 + INR 1)) ([1; 1] ++ [1])).
  { cbn [app].
    repeat (apply Forall_cons; [apply (rank_like_whole _ 1); simpl; lra |]).
    apply Forall_nil. }
  assert (F2 : Forall (rank_like (INR 2 + INR 1)) ([1; 2] ++ [3])).
  { cbn [app].
    apply Forall_cons; [apply (rank_like_whole _ 1); simpl; lra |].
    apply Forall_cons; [apply (rank_like_whole _ 2); simpl; lra |].
    apply Forall_cons; [apply (rank_like_whole _ 3); simpl; lra |].
    apply Forall_nil. }
  assert (H1 : sum [1; 1] + sum [1] <> (INR 2 + INR 1) * (INR 2 + INR 1 + 1) / 2)
    by (unfold sum; simpl; lra).
  assert (H2 : sum [1; 2] + sum [3] = (INR 2 + INR 1) * (INR 2 + INR 1 + 1) / 2)
    by (unfold sum; simpl; lra).
  split.
  - split; [exact F1 |].
    split; [exact H1 | exact (proj1 (calculate_z_assertion [1; 1] [1] F1) H1)].
  - split; [exact F2 |].
    split; [exact H2 | exact (proj2 (calculate_z_assertion [1; 2] [3] F2) H2)].
Defined.

Lemma gauss_chasles (a b c : R) :
  a <= b -> b <= c ->
  RiemannInt (gauss_integrable a b) + RiemannInt (gauss_integrable b c)
  = RiemannInt (gauss_integrable a c).
Proof. intros Hab Hbc. now apply RiemannInt_P26. Qed.

Lemma erf_monotone (a b : R) : a <= b -> erf a <= erf b.
Proof.
  intro Hab. pose proof erf_scale_pos as Hs.
  pose proof (gauss_integral_nonneg a b Hab) as Hpos.
  destruct (Rle_dec 0 a) as [Ha | Ha].
  - unfold erf. pose proof (gauss_chasles 0 a b Ha Hab) as H. nra.
  - destruct (Rle_dec b 0) as [Hb | Hb].
    + unfold erf.
      rewrite (RiemannInt_P8 (gauss_integrable 0 a) (gauss_integrable a 0)).
      rewrite (RiemannInt_P8 (gauss_integrable 0 b) (gauss_integrable b 0)).
      pose proof (gauss_chasles a b 0 Hab Hb) as H. nra.
    + apply Rle_trans with 0; [apply erf_nonpos | apply erf_nonneg]; lra.
Qed.

(** X19: [z_to_p] is non-decreasing and takes the value 0.5 at 0: a smaller
    [z] never gives a larger p-value. *)
Theorem z_to_p_monotone (z1 z2 : R) :
  z1 <= z2 -> z_to_p z1 <= z_to_p z2 /\ z_to_p 0 = 0.5.
Proof.
  intro H. split; [| apply z_to_p_0].
  unfold z_to_p.
  assert (Hs : 0 < sqrt 2) by (apply sqrt_lt_R0; lra).
  assert (Hq : z1 / sqrt 2 <= z2 / sqrt 2).
  { unfold Rdiv. apply Rmult_le_compat_r; [| exact H].
    left. now apply Rinv_0_lt_compat. }
  pose proof (erf_monotone _ _ Hq). lra.
Qed.

Lemma z_to_p_monotone_witness :
  -1 <= 0 /\ z_to_p (-1) <= z_to_p 0 /\ z_to_p 0 = 0.5.
Proof.
  assert (H : -1 <= 0) by lra.
  split; [exact H | exact (z_to_p_monotone (-1) 0 H)].
Defined.

(** *** The direction of the ranking *)

Lemma count_eq_map_inj (g : R -> R) (v : R) (l : list R) :
  (forall a b, g a = g b -> a = b) ->
  count_eq (g v) (map g l) = count_eq v l.
Proof.
  intro Hg. induction l as [| x l IH]; [reflexivity |].
  cbn [map]. rewrite !count_eq_cons, IH.
  destruct (Req_dec_T x v) as [E | E].
  - subst x. now rewrite !Reqb_refl.
  - rewrite (Reqb_false x v) by exact E.
    rewrite Reqb_false; [reflexivity |]. intro H. apply E. now apply Hg.
Qed.

Lemma Counter_map_inj (g : R -> R) (l : list R) :
  (forall a b, g a = g b -> a = b) ->
  Permutation (Counter (map g l)) (map (fun kc => (g (fst kc), snd kc)) (Counter l)).
Proof.
  intro Hg. apply NoDup_Permutation.
  - apply (NoDup_map_inv fst), Counter_NoDup.
  - apply (NoDup_map_inv fst). rewrite map_map. cbn [fst].
    rewrite <- (map_map fst g). apply NoDup_map_NoDup_ForallPairs; [| apply Counter_NoDup].
    intros a b _ _. apply Hg.
  - intros [k c]. rewrite Counter_In, in_map_iff. split.
    + intros [Hc Hpos]. subst c.
      assert (Hin : In k (map g l)) by (now apply count_eq_pos).
      apply in_map_iff in Hin. destruct Hin as [k0 [Hk0 Hin]]. subst k.
      exists (k0, count_eq k0 l). cbn [fst snd].
      rewrite count_eq_map_inj by exact Hg. split; [reflexivity |].
      apply Counter_In. split; [reflexivity | now apply count_eq_pos].
    + intros [[k0 c0] [E Hin]]. cbn [fst snd] in E. inversion E; subst.
      apply Counter_In in Hin. destruct Hin as [Hc Hpos].
      rewrite count_eq_map_inj by exact Hg. split; assumption.
Qed.

Lemma sigma_term_map_inj (g : R -> R) (r1 r2 : list R) :
  (forall a b, g a = g b -> a = b) ->
  sigma_term (map g r1) (map g r2) = sigma_term r1 r2.
Proof.
  intro Hg. rewrite !sigma_term_value, <- map_app, !length_map.
  pose proof (Counter_map_inj g (r1 ++ r2) Hg) as Hp.
  apply (Permutation_map snd) in Hp. rewrite map_map in Hp. cbn [snd] in Hp.
  rewrite (sum_perm _ _ (Permutation_map (fun c => INR c ^ 3) Hp)).
  reflexivity.
Qed.

Lemma sum_map_reflect (c : R) (l : list R) :
  sum (map (fun r => c - r) l) = INR (length l) * c - sum l.
Proof.
  induction l as [| x l IH].
  - simpl. rewrite sum_nil. lra.
  - cbn [map]. rewrite !sum_cons, IH.
    change (length (x :: l)) with (S (length l)). rewrite S_INR. lra.
Qed.

(** Counting the ranks from the other end swaps [U1] and [U2] and leaves [z]
    as it is. *)
Lemma calculate_z_reflect (r1 r2 : list R) :
  let n := INR (length r1) + INR (length r2) in
  sum r1 + sum r2 = n * (n + 1) / 2 ->
  calculate_z (map (fun r => n + 1 - r) r1) (map (fun r => n + 1 - r) r2)
  = calculate_z r1 r2.
Proof.
  intros n Hsum. set (g := fun r => n + 1 - r).
  assert (Hg : forall a b, g a = g b -> a = b) by (unfold g; intros a b H; lra).
  assert (HU1 : U1 (map g r1) (map g r2) = U2 r1 r2).
  { unfold U1, U2. rewrite !length_map. unfold g. rewrite sum_map_reflect.
    unfold n in *. lra. }
  assert (HU2 : U2 (map g r1) (map g r2) = U1 r1 r2).
  { unfold U1, U2. rewrite !length_map. unfold g. rewrite sum_map_reflect.
    unfold n in *. lra. }
  assert (Hstd : std (map g r1) (map g r2) = std r1 r2).
  { unfold std. now rewrite !length_map, sigma_term_map_inj. }
  unfold calculate_z. rewrite HU1, HU2, Hstd, !length_map.
  rewrite (Rplus_comm (U2 r1 r2) (U1 r1 r2)).
  now rewrite (min_from_comm (U2 r1 r2) (U1 r1 r2)).
Qed.

Lemma count_eq_map_dec (f : R -> R) (v : R) (l : list R) :
  (forall a b, a < b -> f b < f a) ->
  count_eq (f v) (map f l) = count_eq v l.
Proof.
  intro Hf. apply count_eq_map_inj. intros a b H.
  destruct (Rtotal_order a b) as [Hab | [Hab | Hab]]; [| exact Hab |].
  - pose proof (Hf _ _ Hab). lra.
  - pose proof (Hf _ _ Hab). lra.
Qed.

Lemma count_gt_map_dec (f : R -> R) (v : R) (l : list R) :
  (forall a b, a < b -> f b < f a) ->
  count_gt (f v) (map f l) = count_lt v l.
Proof.
  intro Hf. induction l as [| x l IH]; [reflexivity |].
  cbn [map]. rewrite count_gt_cons, count_lt_cons, IH.
  destruct (Rtotal_order x v) as [H | [H | H]].
  - pose proof (Hf _ _ H). now rewrite !Rltb_true by lra.
  - subst x. now rewrite !Rltb_false by lra.
  - pose proof (Hf _ _ H). now rewrite !Rltb_false by lra.
Qed.

Lemma mean_rank_map_dec (f : R -> R) (v : R) (l : list R) :
  (forall a b, a < b -> f b < f a) ->
  mean_rank (map f l) (f v) = INR (length l) + 1 - mean_rank l v.
Proof.
  intro Hf. unfold mean_rank, last_position.
  rewrite count_eq_map_dec, count_gt_map_dec by exact Hf.
  pose proof (count_trichotomy v l) as H.
  apply (f_equal INR) in H. rewrite !plus_INR in *. lra.
Qed.

Lemma U_reflect (r1 r2 : list R) :
  let n := INR (length r1) + INR (length r2) in
  sum r1 + sum r2 = n * (n + 1) / 2 ->
  U1 (map (fun r => n + 1 - r) r1) (map (fun r => n + 1 - r) r2) = U2 r1 r2 /\
  U2 (map (fun r => n + 1 - r) r1) (map (fun r => n + 1 - r) r2) = U1 r1 r2.
Proof.
  intros n Hsum. unfold U1, U2. rewrite !length_map, !sum_map_reflect.
  unfold n in *. split; lra.
Qed.

(** X20: the direction of the ranking does not matter: mapping all
    observations through a strictly decreasing function (negating them, so
    that the smallest is ranked first) swaps [U1] and [U2] and leaves the
    result as it is. *)
Theorem mannwhitneyu_direction (f : R -> R) (x1 x2 : list R) (p : R) :
  (forall a b, a < b -> f b < f a) ->
  (exists rank_dict ranks1 ranks2 rank_dict' ranks1' ranks2',
      rank (x1 ++ x2) = Ok rank_dict /\
      mapM (fun el => getitem el rank_dict) x1 = Ok ranks1 /\
      mapM (fun el => getitem el rank_dict) x2 = Ok ranks2 /\
      rank (map f x1 ++ map f x2) = Ok rank_dict' /\
      mapM (fun el => getitem el rank_dict') (map f x1) = Ok ranks1' /\
      mapM (fun el => getitem el rank_dict') (map f x2) = Ok ranks2' /\
      U1 ranks1' ranks2' = U2 ranks1 ranks2 /\
      U2 ranks1' ranks2' = U1 ranks1 ranks2) /\
  mannwhitneyu (map f x1) (map f x2) p = mannwhitneyu x1 x2 p.
Proof.
  intro Hf.
  set (pool := x1 ++ x2).
  set (r1 := map (mean_rank pool) x1). set (r2 := map (mean_rank pool) x2).
  set (n := INR (length r1) + INR (length r2)).
  assert (Hn : INR (length pool) = n).
  { unfold n, r1, r2, pool. now rewrite !length_map, length_app, plus_INR. }
  assert (E : forall l, map (mean_rank (map f x1 ++ map f x2)) (map f l)
                        = map (fun r => n + 1 - r) (map (mean_rank pool) l)).
  { intro l. rewrite <- map_app, !map_map. apply map_ext. intro a. fold pool.
    rewrite mean_rank_map_dec by exact Hf. now rewrite Hn. }
  assert (Hsum : sum r1 + sum r2 = n * (n + 1) / 2).
  { unfold r1, r2. rewrite <- sum_app, <- map_app. fold pool.
    rewrite sum_mean_rank, Hn. reflexivity. }
  split.
  - destruct (sample_ranks x1 x2) as [d [Hd [H1 H2]]].
    destruct (sample_ranks (map f x1) (map f x2)) as [d' [Hd' [H1' H2']]].
    rewrite !E in H1', H2'. fold pool r1 r2 in H1, H2, H1', H2'.
    exists d, r1, r2, d', (map (fun r => n + 1 - r) r1), (map (fun r => n + 1 - r) r2).
    pose proof (U_reflect r1 r2) as HU. cbv zeta in HU. fold n in HU.
    destruct (HU Hsum) as [HU1 HU2].
    repeat (split; [assumption |]). assumption.
  - rewrite !mannwhitneyu_ranks, !E. fold pool r1 r2.
    pose proof (calculate_z_reflect r1 r2) as Hz. cbv zeta in Hz. fold n in Hz.
    now rewrite (Hz Hsum).
Qed.

Lemma mannwhitneyu_direction_witness :
  (forall a b, a < b -> - b < - a) /\
  (exists rank_dict ranks1 ranks2 rank_dict' ranks1' ranks2',
      rank ([1; 2; 3] ++ [10; 11; 12]) = Ok rank_dict /\
      mapM (fun el => getitem el rank_dict) [1; 2; 3] = Ok ranks1 /\
      mapM (fun el => getitem el rank_dict) [10; 11; 12] = Ok ranks2 /\
      rank (map Ropp [1; 2; 3] ++ map Ropp [10; 11; 12]) = Ok rank_dict' /\
      mapM (fun el => getitem el rank_dict') (map Ropp [1; 2; 3]) = Ok ranks1' /\
      mapM (fun el => getitem el rank_dict') (map Ropp [10; 11; 12]) = Ok ranks2' /\
      U1 ranks1' ranks2' = U2 ranks1 ranks2 /\
      U2 ranks1' ranks2' = U1 ranks1 ranks2) /\
  mannwhitneyu (map Ropp [1; 2; 3]) (map Ropp [10; 11; 12]) 0.05
  = mannwhitneyu [1; 2; 3] [10; 11; 12] 0.05.
Proof.
  assert (H : forall a b, a < b -> - b < - a) by (intros a b Hab; lra).
  split; [exact H | exact (mannwhitneyu_direction Ropp [1; 2; 3] [10; 11; 12] 0.05 H)].
Defined.

End RankSumMore.
